(** * textual: dock layout engine and application orchestrator

    A shallow embedding of [textual/layouts/dock.py] (the [DockLayout]
    layout engine) and of [textual/app.py] (the [App] orchestrator: key
    bindings, focus and pointer state, event routing, action dispatch and
    the top-level lifecycle), followed by the properties proved about them.

    Python [int] is [Z]; [dict] is stdpp's [gmap]; [str] is [string];
    objects are compared by identity, which is modelled by a numeric
    identifier carried by every widget. *)

From stdpp Require Import gmap strings list fin_maps.
From Stdlib Require Import ZArith Lia Ascii.

Local Open Scope Z_scope.

(** ** Geometry *)

(** Modelled from the spec: [Point] ([geometry.py]), the pair of
    coordinates that [dock.py] passes as an offset. *)
Record Point : Type := mkPoint { px : Z; py : Z }.

(** Modelled from the spec: [Region] ([geometry.py]), the rectangle
    [(x, y, width, height)] that [dock.py] constructs and destructures. *)
Record Region : Type := mkRegion {
  region_x : Z;
  region_y : Z;
  region_width : Z;
  region_height : Z
}.

(** Modelled from the spec: [Region.__bool__] ([geometry.py]).  A dock is
    skipped when its layer's remaining region is empty, that is when it
    has no columns or no rows left. *)
Definition region_bool (r : Region) : bool :=
  negb (region_width r =? 0) && negb (region_height r =? 0).

(** Modelled from the spec: [Region.__add__] ([geometry.py]).  Adding an
    offset translates the rectangle and keeps its extent. *)
Definition region_add (r : Region) (p : Point) : Region :=
  mkRegion (region_x r + px p) (region_y r + py p)
           (region_width r) (region_height r).

(** Modelled from the spec: [Region.origin] ([geometry.py]). *)
Definition region_origin (r : Region) : Point :=
  mkPoint (region_x r) (region_y r).

(** ** Widgets and docks *)

Inductive DockEdge : Type := top | right | bottom | left.

Record DockOptions : Type := mkDockOptions {
  size : option Z;
  fraction : Z;
  minimum_size : Z
}.

Definition ratio (o : DockOptions) : Z := fraction o.

(** The attributes of a widget that the layout engine and the
    orchestrator read.  [widget_id] stands for the identity of the Python
    object. *)
Record WidgetAttrs : Type := mkWidgetAttrs {
  widget_id : nat;
  attr_can_focus : bool;
  attr_visible : bool;
  attr_layout_size : option Z;
  attr_layout_fraction : Z;
  attr_layout_minimim_size : Z;
  attr_layout_offset : Point
}.

(** A widget is a [View] exactly when it carries a dock list (the docks of
    its [DockLayout]). *)
Inductive Widget : Type :=
| MkWidget (attrs : WidgetAttrs) (view_docks : option (list Dock))
with Dock : Type :=
| MkDock (dock_edge : DockEdge) (dock_widgets : list Widget) (dock_z : Z).

Definition widget_attrs (w : Widget) : WidgetAttrs :=
  match w with MkWidget a _ => a end.
Definition view_layout (w : Widget) : option (list Dock) :=
  match w with MkWidget _ d => d end.
Definition is_view (w : Widget) : bool :=
  match view_layout w with Some _ => true | None => false end.

Definition wid (w : Widget) : nat := widget_id (widget_attrs w).
Definition can_focus (w : Widget) : bool := attr_can_focus (widget_attrs w).
Definition visible (w : Widget) : bool := attr_visible (widget_attrs w).
Definition layout_size (w : Widget) : option Z :=
  attr_layout_size (widget_attrs w).
Definition layout_fraction (w : Widget) : Z :=
  attr_layout_fraction (widget_attrs w).
Definition layout_minimim_size (w : Widget) : Z :=
  attr_layout_minimim_size (widget_attrs w).
Definition layout_offset (w : Widget) : Point :=
  attr_layout_offset (widget_attrs w).

Definition edge (d : Dock) : DockEdge :=
  match d with MkDock e _ _ => e end.
Definition widgets (d : Dock) : list Widget :=
  match d with MkDock _ ws _ => ws end.
Definition z (d : Dock) : Z :=
  match d with MkDock _ _ k => k end.

(** [MapRegion]: the absolute region of a widget and its paint order
    [(z, index)]. *)
Record MapRegion : Type := mkMapRegion {
  map_region : Region;
  map_order : Z * nat
}.

(** The result [dict[Widget, MapRegion]], keyed by widget identity. *)
Abbreviation LayoutMap := (gmap nat MapRegion).

(** The per-layer remaining regions [defaultdict(lambda: layout_region)]. *)
Abbreviation Layers := (gmap Z Region).

Module DockLayout.

Section Engine.

(** [rich._ratio.ratio_resolve] belongs to an external library; the
    engine is stated for any such function. *)
Variable ratio_resolve : Z -> list DockOptions -> list Z.

(** The recursive call [widget.layout.generate_map] made for a [View]. *)
Variable sub_layout : Widget -> Z -> Z -> Point -> LayoutMap.

(** The closure [add_widget]; [map.update(sub_map)] lets the entries of
    the sub-map win. *)
Definition add_widget (offset : Point) (widget : Widget) (region : Region)
    (order : Z * nat) (map : LayoutMap) : LayoutMap :=
  let region := region_add (region_add region offset) (layout_offset widget) in
  let map := <[wid widget := mkMapRegion region order]> map in
  if is_view widget then
    let sub_map :=
      sub_layout widget (region_width region) (region_height region)
                 (region_origin region) in
    sub_map ∪ map
  else map.

(** The variables of the loop that walks the widgets of one dock. *)
Record Walk : Type := mkWalk {
  render : Z;
  remaining : Z;
  total : Z;
  walk_map : LayoutMap
}.

(** Where [render] starts for each edge. *)
Definition render_start (e : DockEdge) (r : Region) : Z :=
  match e with
  | top => region_y r
  | bottom => region_y r + region_height r
  | left => region_x r
  | right => region_x r + region_width r
  end.

(** The rectangle handed to [add_widget] for a widget of clamped size
    [size] when the cursor is at [render]. *)
Definition placed (e : DockEdge) (r : Region) (render size : Z) : Region :=
  match e with
  | top => mkRegion (region_x r) render (region_width r) size
  | bottom => mkRegion (region_x r) (render - size) (region_width r) size
  | left => mkRegion render (region_y r) size (region_height r)
  | right => mkRegion (render - size) (region_y r) size (region_height r)
  end.

Definition advance (e : DockEdge) (render size : Z) : Z :=
  match e with
  | top | left => render + size
  | bottom | right => render - size
  end.

(** [for widget, size in zip(dock.widgets, sizes): ...], the same loop
    in the four branches of [generate_map] up to the edge.  [zip] stops
    at the end of the shorter list. *)
Fixpoint walk (offset : Point) (e : DockEdge) (r : Region) (order : Z * nat)
    (ws : list Widget) (sizes : list Z) (st : Walk) {struct ws} : Walk :=
  match ws, sizes with
  | widget :: ws', size :: sizes' =>
      if negb (visible widget) then walk offset e r order ws' sizes' st
      else
        let size := Z.min (remaining st) size in
        if size =? 0 then st
        else
          walk offset e r order ws' sizes'
            (mkWalk (advance e (render st) size)
                    (Z.max 0 (remaining st - size))
                    (total st + size)
                    (add_widget offset widget (placed e r (render st) size)
                                order (walk_map st)))
  | _, _ => st
  end.

(** The extent of a region along the axis of an edge. *)
Definition axis_extent (e : DockEdge) (r : Region) : Z :=
  match e with
  | top | bottom => region_height r
  | left | right => region_width r
  end.

(** The region left to the layer once [total] has been consumed. *)
Definition shrink (e : DockEdge) (r : Region) (total : Z) : Region :=
  match e with
  | top => mkRegion (region_x r) (region_y r + total)
                    (region_width r) (region_height r - total)
  | bottom => mkRegion (region_x r) (region_y r)
                       (region_width r) (region_height r - total)
  | left => mkRegion (region_x r + total) (region_y r)
                     (region_width r - total) (region_height r)
  | right => mkRegion (region_x r) (region_y r)
                      (region_width r - total) (region_height r)
  end.

(** Reading [layers[k]]: a missing layer yields [layout_region]. *)
Definition layer (layout_region : Region) (layers : Layers) (k : Z) : Region :=
  default layout_region (layers !! k).

Definition dock_options (dock : Dock) : list DockOptions :=
  List.map
    (fun widget =>
       mkDockOptions (layout_size widget) (layout_fraction widget)
                     (layout_minimim_size widget))
    (widgets dock).

(** One iteration of [for index, dock in enumerate(self.docks)].  The
    read [layers[dock.z]] of a [defaultdict] stores the default. *)
Definition dock_step (layout_region : Region) (offset : Point)
    (index : nat) (dock : Dock) (st : LayoutMap * Layers)
    : LayoutMap * Layers :=
  let '(map, layers) := st in
  let options := dock_options dock in
  let region := layer layout_region layers (z dock) in
  let layers := <[z dock := region]> layers in
  if negb (region_bool region) then (map, layers)
  else
    let order := (z dock, index) in
    let sizes := ratio_resolve (axis_extent (edge dock) region) options in
    let w :=
      walk offset (edge dock) region order (widgets dock) sizes
           (mkWalk (render_start (edge dock) region)
                   (axis_extent (edge dock) region) 0 map) in
    (walk_map w, <[z dock := shrink (edge dock) region (total w)]> layers).

Fixpoint dock_loop (layout_region : Region) (offset : Point)
    (index : nat) (docks : list Dock) (st : LayoutMap * Layers)
    : LayoutMap * Layers :=
  match docks with
  | [] => st
  | dock :: rest =>
      dock_loop layout_region offset (S index) rest
                (dock_step layout_region offset index dock st)
  end.

Definition generate_docks (docks : list Dock) (width height : Z)
    (offset : Point) : LayoutMap :=
  let layout_region := mkRegion 0 0 width height in
  fst (dock_loop layout_region offset 0%nat docks (∅, ∅)).

End Engine.

(** Tying the recursion: the layout of a [View] is the layout of its own
    dock list. *)
Fixpoint layout_of (ratio_resolve : Z -> list DockOptions -> list Z)
    (widget : Widget) {struct widget} : Z -> Z -> Point -> LayoutMap :=
  match widget with
  | MkWidget _ (Some docks) =>
      fun width height offset =>
        generate_docks ratio_resolve (layout_of ratio_resolve) docks
                       width height offset
  | MkWidget _ None => fun _ _ _ => ∅
  end.

Definition generate_map (ratio_resolve : Z -> list DockOptions -> list Z)
    (docks : list Dock) (width height : Z) (offset : Point) : LayoutMap :=
  generate_docks ratio_resolve (layout_of ratio_resolve) docks
                 width height offset.

End DockLayout.

(** ** Strings

    The [str] methods used by [App.bind] and [App.action]. *)

Module Str.

Local Open Scope char_scope.

(** [str.isspace] on one character, for code points below 256. *)
Definition isspace (c : ascii) : bool :=
  let n := Ascii.N_of_ascii c in
  (((9 <=? n) && (n <=? 13)) || ((28 <=? n) && (n <=? 32))
   || (n =? 133) || (n =? 160))%N.

Fixpoint lstrip (s : string) : string :=
  match s with
  | EmptyString => EmptyString
  | String c s' => if isspace c then lstrip s' else s
  end.

Fixpoint rstrip (s : string) : string :=
  match s with
  | EmptyString => EmptyString
  | String c s' =>
      match rstrip s' with
      | EmptyString => if isspace c then EmptyString else String c EmptyString
      | t => String c t
      end
  end.

(** [s.strip()] *)
Definition strip (s : string) : string := rstrip (lstrip s).

(** [s.split(sep)] for a one-character separator: never empty. *)
Fixpoint split (sep : ascii) (s : string) : list string :=
  match s with
  | EmptyString => [EmptyString]
  | String c s' =>
      if Ascii.eqb c sep then EmptyString :: split sep s'
      else
        match split sep s' with
        | piece :: rest => String c piece :: rest
        | [] => [String c EmptyString]
        end
  end.

(** [sep in s] *)
Fixpoint contains (sep : ascii) (s : string) : bool :=
  match s with
  | EmptyString => false
  | String c s' => Ascii.eqb c sep || contains sep s'
  end.

(** [s.split(sep, 1)] when [sep in s]: the text before the first
    separator and the text after it; [(s, "")] cannot occur then. *)
Fixpoint split1 (sep : ascii) (s : string) : string * string :=
  match s with
  | EmptyString => (EmptyString, EmptyString)
  | String c s' =>
      if Ascii.eqb c sep then (EmptyString, s')
      else let '(a, b) := split1 sep s' in (String c a, b)
  end.

(** [sep.join(pieces)] *)
Fixpoint join (sep : ascii) (pieces : list string) : string :=
  match pieces with
  | [] => EmptyString
  | [piece] => piece
  | piece :: rest => String.append piece (String sep (join sep rest))
  end.

(** Every character of [s] is whitespace. *)
Fixpoint all_space (s : string) : bool :=
  match s with
  | EmptyString => true
  | String c s' => isspace c && all_space s'
  end.

Definition starts_with_space (s : string) : bool :=
  match s with
  | EmptyString => false
  | String c _ => isspace c
  end.

Fixpoint ends_with_space (s : string) : bool :=
  match s with
  | EmptyString => false
  | String c EmptyString => isspace c
  | String _ s' => ends_with_space s'
  end.

End Str.

(** ** Events *)

Module events.

(** Modelled from the spec: the event vocabulary of [events.py]; the
    [sender] field is always the application in [app.py] and is left
    out. *)
Inductive Event : Type :=
| Key (key : string)
| MouseMove | MouseDown | MouseUp | MouseScrollUp | MouseScrollDown
| Resize
| Enter | Leave | Focus | Blur
| Load | Startup | ShutdownRequest | Created | Update.

(** [isinstance(event, events.Key)] *)
Definition is_Key (e : Event) : bool :=
  match e with Key _ => true | _ => false end.

(** Modelled from the spec: [isinstance(event, events.InputEvent)]; the
    input events are the key event and the pointer events. *)
Definition is_InputEvent (e : Event) : bool :=
  match e with
  | Key _ | MouseMove | MouseDown | MouseUp
  | MouseScrollUp | MouseScrollDown => true
  | _ => false
  end.

End events.

(** ** The orchestrator's state and effects *)

(** Modelled from the spec: [keys.Binding(action, description)]
    ([keys.py]), an action string and a human description. *)
Record Binding : Type := mkBinding {
  binding_action : string;
  binding_description : string
}.

(** The objects an action can be dispatched on. *)
Inductive Object : Type :=
| ObjApp
| ObjWidget (w : Widget)
| ObjOther (name : string).

(** The receiver of [post_message]. *)
Inductive Pump : Type :=
| PumpApp
| PumpWidget (w : Widget).

(** The calls that leave [app.py], and the attribute writes whose position
    among those calls matters.  [log.debug] lines are left out. *)
Inductive Effect : Type :=
| PostMessage (target : Pump) (event : events.Event)
| ForwardEvent (target : Widget) (event : events.Event)
| StartMessages (child : Widget)
| SetParent (child : Widget)
| CloseMessages (target : Widget)
| CallMethod (namespace : Object) (method_name : string) (params : list string)
| AssignFocused (value : option Widget)
| AssignMouseOver (value : option Widget)
| DriverClass
| ActiveAppSet
| StartApplicationMode
| StopApplicationMode
| AnimatorStart
| AnimatorStop
| PrintException
| LogException (msg : string)
| MakeTraceback
| PrintTraceback.

(** Exceptions: the ones [app.py] raises itself and the ones that escape
    from a call it makes, named by their class. *)
Inductive Exception : Type :=
| ActionError (msg : string)
| IndexError
| AttributeError (name : string)
| Escaped (name : string).

(** [isinstance(e, Exception)]: the exceptions that [app.py] raises are
    instances of [Exception]; of those that escape from a call, the
    builtin ones that derive from [BaseException] alone are not. *)
Definition is_Exception (e : Exception) : bool :=
  match e with
  | Escaped name =>
      negb (existsb (String.eqb name)
              ["SystemExit"; "KeyboardInterrupt"; "GeneratorExit";
               "CancelledError"]%string)
  | _ => true
  end.

Inductive Result (A : Type) : Type :=
| Return (a : A)
| Raise (e : Exception).
Arguments Return {A} a.
Arguments Raise {A} e.

Record AppState : Type := mkApp {
  _view_stack : list Widget;
  children : gset nat;
  focused : option Widget;
  mouse_over : option Widget;
  mouse_captured : option Widget;
  _bindings : gmap string Binding;
  _action_targets : gset string
}.

(** A method of [App]: it runs from a state, and yields a result or an
    exception, the state it leaves and the effects it performed, oldest
    first.  Attribute writes made before an exception persist. *)
Definition M (A : Type) : Type := AppState -> Result A * AppState * list Effect.

#[global] Instance M_ret : MRet M :=
  fun A a s => (Return a, s, []).

#[global] Instance M_bind : MBind M :=
  fun A B f m s =>
    match m s with
    | (Return a, s', t) => let '(r, s'', t') := f a s' in (r, s'', t ++ t')
    | (Raise e, s', t) => (Raise e, s', t)
    end.

Definition raise {A : Type} (e : Exception) : M A :=
  fun s => (Raise e, s, []).

Definition get : M AppState := fun s => (Return s, s, []).

Definition modify (f : AppState -> AppState) : M unit :=
  fun s => (Return tt, f s, []).

(** A write that is recorded among the effects. *)
Definition assign (eff : Effect) (f : AppState -> AppState) : M unit :=
  fun s => (Return tt, f s, [eff]).

(** [try: body finally: final] *)
Definition try_finally {A : Type} (body : M A) (final : M unit) : M A :=
  fun s =>
    let '(r, s', t) := body s in
    match final s' with
    | (Return _, s'', t') => (r, s'', t ++ t')
    | (Raise e, s'', t') => (Raise e, s'', t ++ t')
    end.

(** [try: body except Exception: handler else: orelse]; an exception
    that is not an instance of [Exception] is not caught. *)
Definition try_except_else {A B : Type} (body : M A) (handler : M B)
    (orelse : A -> M B) : M B :=
  fun s =>
    match body s with
    | (Return a, s', t) => let '(r, s'', t') := orelse a s' in (r, s'', t ++ t')
    | (Raise e, s', t) =>
        if is_Exception e then
          let '(r, s'', t') := handler s' in (r, s'', t ++ t')
        else (Raise e, s', t)
    end.

Definition widget_eqb (a b : Widget) : bool := Nat.eqb (wid a) (wid b).

(** [a == b] on [Widget | None], by object identity. *)
Definition opt_widget_eqb (a b : option Widget) : bool :=
  match a, b with
  | None, None => true
  | Some x, Some y => widget_eqb x y
  | _, _ => false
  end.

Definition set_focused (v : option Widget) (s : AppState) : AppState :=
  mkApp (_view_stack s) (children s) v (mouse_over s) (mouse_captured s)
        (_bindings s) (_action_targets s).
Definition set_mouse_over_attr (v : option Widget) (s : AppState) : AppState :=
  mkApp (_view_stack s) (children s) (focused s) v (mouse_captured s)
        (_bindings s) (_action_targets s).
Definition set_mouse_captured (v : option Widget) (s : AppState) : AppState :=
  mkApp (_view_stack s) (children s) (focused s) (mouse_over s) v
        (_bindings s) (_action_targets s).
Definition set_bindings (b : gmap string Binding) (s : AppState) : AppState :=
  mkApp (_view_stack s) (children s) (focused s) (mouse_over s)
        (mouse_captured s) b (_action_targets s).
Definition set_view_stack (l : list Widget) (s : AppState) : AppState :=
  mkApp l (children s) (focused s) (mouse_over s) (mouse_captured s)
        (_bindings s) (_action_targets s).
Definition set_children (c : gset nat) (s : AppState) : AppState :=
  mkApp (_view_stack s) c (focused s) (mouse_over s) (mouse_captured s)
        (_bindings s) (_action_targets s).

(** ** The orchestrator: [class App] *)

Module App.

Local Open Scope string_scope.

(** [App.__init__]; [root_view] is the object made by [View()]. *)
Definition init (root_view : Widget) : AppState :=
  mkApp [root_view] ∅ None None None ∅ {[ "app"; "view" ]}.

Section Methods.

(** Which of the calls that leave [app.py] raise, and the class name of
    what they raise. *)
Variable raises : Effect -> option string.

(** [actions.parse], the parser of action strings, kept abstract: it
    returns the target and the parameters, or raises (the class name of
    what it raises is given). *)
Variable parse : string -> string * list string + string.

(** [getattr(namespace, method_name, None) is not None] *)
Variable has_method : Object -> string -> bool.

(** [MessagePump.process_messages] and [MessagePump.on_event], reached
    through [super()], and the [on_load] hook a subclass may override. *)
Variable super_process_messages : M unit.
Variable super_on_event : events.Event -> M unit.
Variable on_load : events.Event -> M unit.

Definition call (eff : Effect) : M unit :=
  fun s =>
    (match raises eff with
     | Some name => Raise (Escaped name)
     | None => Return tt
     end, s, [eff]).

(** The property [view]: [self._view_stack[-1]]. *)
Definition view : M Widget :=
  s ← get;
  match last (_view_stack s) with
  | Some v => mret v
  | None => raise IndexError
  end.

(** [for key in all_keys: self._bindings[key] = Binding(action, description)] *)
Fixpoint bind_all (all_keys : list string) (action description : string)
    : M unit :=
  match all_keys with
  | [] => mret tt
  | key :: rest =>
      modify (fun s =>
        set_bindings (<[key := mkBinding action description]> (_bindings s)) s) ;;
      bind_all rest action description
  end.

Definition bind (keys action description : string) : M unit :=
  let all_keys := Str.strip <$> Str.split "," keys in
  bind_all all_keys action description.

Definition register (child : Widget) : M unit :=
  modify (fun s => set_children ({[wid child]} ∪ children s) s) ;;
  call (StartMessages child) ;;
  call (PostMessage (PumpWidget child) events.Created).

(** [self._view_stack[0] = view] raises [IndexError] on an empty list. *)
Definition push_view (view : Widget) : M Widget :=
  register view ;;
  call (SetParent view) ;;
  s ← get;
  match _view_stack s with
  | [] => raise IndexError
  | _ :: _ => modify (set_view_stack (<[0%nat := view]> (_view_stack s)))
  end ;;
  mret view.

Definition set_focus (widget : option Widget) : M unit :=
  s ← get;
  if opt_widget_eqb widget (focused s) then mret tt
  else
    match widget with
    | None =>
        match focused s with
        | Some focused0 =>
            assign (AssignFocused None) (set_focused None) ;;
            call (PostMessage (PumpWidget focused0) events.Blur)
        | None => mret tt
        end
    | Some w =>
        if can_focus w then
          match focused s with
          | Some old => call (PostMessage (PumpWidget old) events.Blur)
          | None => mret tt
          end ;;
          s' ← get;
          if negb (opt_widget_eqb (focused s') (Some w)) then
            assign (AssignFocused (Some w)) (set_focused (Some w)) ;;
            call (PostMessage (PumpWidget w) events.Focus)
          else mret tt
        else mret tt
    end.

Definition set_mouse_over (widget : option Widget) : M unit :=
  s ← get;
  match widget with
  | None =>
      match mouse_over s with
      | Some old =>
          try_finally
            (call (PostMessage (PumpWidget old) events.Leave))
            (assign (AssignMouseOver None) (set_mouse_over_attr None))
      | None => mret tt
      end
  | Some w =>
      if negb (opt_widget_eqb (mouse_over s) (Some w)) then
        try_finally
          (match mouse_over s with
           | Some old => call (ForwardEvent old events.Leave)
           | None => mret tt
           end ;;
           call (ForwardEvent w events.Enter))
          (assign (AssignMouseOver (Some w)) (set_mouse_over_attr (Some w)))
      else mret tt
  end.

Definition capture_mouse (widget : option Widget) : M unit :=
  modify (set_mouse_captured widget).

Definition dispatch_action (namespace : Object) (action_name : string)
    (params : list string) : M unit :=
  let method_name := String.append "action_" action_name in
  if has_method namespace method_name
  then call (CallMethod namespace method_name params)
  else mret tt.

(** [getattr(self, destination)] for a registered namespace: [view] is
    the property above; [class App] defines no attribute [app], so that
    lookup raises [AttributeError], as it does for any other name. *)
Definition getattr_self (destination : string) : M Object :=
  if String.eqb destination "view" then v ← view; mret (ObjWidget v)
  else raise (AttributeError destination).

(** The message of [ActionError] is not an f-string in the source. *)
Definition action (act : string) (default_namespace : option Object)
    : M unit :=
  match parse act with
  | inr name => raise (Escaped name)
  | inl (target, params) =>
      if Str.contains "." target then
        let '(destination, action_name) := Str.split1 "." target in
        s ← get;
        if negb (bool_decide (destination ∈ _action_targets s)) then
          raise (ActionError "Action namespace {destination} is not known")
        else
          action_target ← getattr_self destination;
          dispatch_action action_target action_name params
      else
        let action_target := default ObjApp default_namespace in
        let action_name := act in
        dispatch_action action_target action_name params
  end.

Definition on_event (event : events.Event) : M unit :=
  s ← get;
  match (match event with
         | events.Key key => _bindings s !! key
         | _ => None
         end) with
  | Some binding => action (binding_action binding) None
  | None =>
      if events.is_InputEvent event then
        (if events.is_Key event then
           match focused s with
           | Some f => call (ForwardEvent f event)
           | None => mret tt
           end
         else mret tt) ;;
        v ← view;
        call (ForwardEvent v event)
      else super_on_event event
  end.




(** A sequence of [set_focus] calls. *)
Fixpoint set_focus_all (calls : list (option Widget)) : M unit :=
  match calls with
  | [] => mret tt
  | widget :: rest => set_focus widget ;; set_focus_all rest
  end.

(** A sequence of [push_view] calls; it goes on after a call that
    raised, as the message loop does after a failed handler. *)
Fixpoint push_view_all (views : list Widget) (s : AppState) : AppState :=
  match views with
  | [] => s
  | v :: rest => push_view_all rest (push_view v s).1.2
  end.

End Methods.

(** The methods [action_quit], [action_bang] and [action_bell] that
    [class App] itself defines. *)
Definition App_has_method (namespace : Object) (method_name : string) : bool :=
  match namespace with
  | ObjApp =>
      String.eqb method_name "action_quit"
      || String.eqb method_name "action_bang"
      || String.eqb method_name "action_bell"
  | _ => false
  end.

(** [action_bang] evaluates [1 / 0]; the other two are taken not to
    raise. *)
Definition App_raises (eff : Effect) : option string :=
  match eff with
  | CallMethod ObjApp method_name _ =>
      if String.eqb method_name "action_bang" then Some "ZeroDivisionError"
      else None
  | _ => None
  end.

(** Modelled from the spec: [actions.parse] ([actions.py]) on an action
    string that carries no parameter list, where the grammar
    [[namespace.]name [params]] leaves the whole string as the target path
    and the parameter list empty. *)
Definition parse_bare (act : string) : string * list string + string :=
  inl (act, []).

(** The oracle under which no call raises. *)
Definition never_raises (eff : Effect) : option string := None.

End App.

(** ** Further methods of [class App] *)

Module AppHandlers.

Import App.

Section Methods.

Variable raises : Effect -> option string.

(** [remove]: [self.children.remove(child)]; [set.remove] raises
    [KeyError] when the element is missing. *)
Definition remove (child : Widget) : M unit :=
  s ← get;
  if bool_decide (wid child ∈ children s) then
    modify (fun s => set_children (children s ∖ {[wid child]}) s)
  else raise (Escaped "KeyError").

(** The body shared by [on_resize], [on_mouse_move], [on_mouse_down],
    [on_mouse_up], [on_mouse_scroll_up] and [on_mouse_scroll_down]:
    [await self.view.post_message(event)]. *)
Definition post_to_view (event : events.Event) : M unit :=
  v ← view;
  call raises (PostMessage (PumpWidget v) event).

Definition on_resize : events.Event -> M unit := post_to_view.
Definition on_mouse_move : events.Event -> M unit := post_to_view.
Definition on_mouse_down : events.Event -> M unit := post_to_view.
Definition on_mouse_up : events.Event -> M unit := post_to_view.
Definition on_mouse_scroll_up : events.Event -> M unit := post_to_view.
Definition on_mouse_scroll_down : events.Event -> M unit := post_to_view.

End Methods.

(** A call of one of the methods of the orchestrator, as its handlers
    and the application's own code make them. *)
Inductive Call : Type :=
| CallBind (keys action description : string)
| CallPushView (view : Widget)
| CallSetFocus (widget : option Widget)
| CallSetMouseOver (widget : option Widget)
| CallCaptureMouse (widget : option Widget)
| CallRegister (child : Widget)
| CallRemove (child : Widget)
| CallAction (action : string) (default_namespace : option Object)
| CallOnEvent (event : events.Event)
| CallOnResize (event : events.Event).

Section Calls.

Variable raises : Effect -> option string.
Variable parse : string -> string * list string + string.
Variable has_method : Object -> string -> bool.
Variable super_on_event : events.Event -> M unit.

Definition run_call (c : Call) : M unit :=
  match c with
  | CallBind keys action description => bind keys action description
  | CallPushView v => push_view raises v ;; mret tt
  | CallSetFocus widget => set_focus raises widget
  | CallSetMouseOver widget => set_mouse_over raises widget
  | CallCaptureMouse widget => capture_mouse widget
  | CallRegister child => register raises child
  | CallRemove child => remove child
  | CallAction act default_namespace =>
      action raises parse has_method act default_namespace
  | CallOnEvent event =>
      on_event raises parse has_method super_on_event event
  | CallOnResize event => on_resize raises event
  end.

(** A sequence of calls; it goes on after a call that raised, as the
    message loop does after a failed handler. *)
Fixpoint run_calls (cs : list Call) (s : AppState) : AppState :=
  match cs with
  | [] => s
  | c :: rest => run_calls rest (run_call c s).1.2
  end.

End Calls.

End AppHandlers.

(** ** Observations on effect sequences *)

(** Scans a sequence of effects for two [Focus] messages with no [Blur]
    between them: [pending] tells whether a [Focus] has been posted since
    the last [Blur]; [None] reports such a pair. *)
Fixpoint focus_scan (pending : bool) (t : list Effect) : option bool :=
  match t with
  | [] => Some pending
  | PostMessage _ events.Focus :: t' =>
      if pending then None else focus_scan true t'
  | PostMessage _ events.Blur :: t' => focus_scan false t'
  | _ :: t' => focus_scan pending t'
  end.

Definition is_forward (eff : Effect) : bool :=
  match eff with ForwardEvent _ _ => true | _ => false end.


(** Whether the oracle's answer for a call is an exception. *)
Definition did_raise (answer : option string) : bool :=
  match answer with Some _ => true | None => false end.

Definition is_raise {A : Type} (r : Result A) : bool :=
  match r with Raise _ => true | Return _ => false end.

Definition is_blur_post (eff : Effect) : bool :=
  match eff with PostMessage _ events.Blur => true | _ => false end.

Definition is_focus_post (eff : Effect) : bool :=
  match eff with PostMessage _ events.Focus => true | _ => false end.

Definition is_focused_write (eff : Effect) : bool :=
  match eff with AssignFocused _ => true | _ => false end.

(** Some effect satisfying [a] comes earlier in [t] than some effect
    satisfying [b]. *)
Fixpoint occurs_before (a b : Effect -> bool) (t : list Effect) : bool :=
  match t with
  | [] => false
  | eff :: t' => (a eff && existsb b t') || occurs_before a b t'
  end.

(** The focus holder is set whenever a posted [Focus] has not been
    followed by a [Blur] yet. *)
Definition focus_inv (s : AppState) (pending : bool) : Prop :=
  focused s = None -> pending = false.

(** The target of an action names a namespace that is not registered. *)
Definition bad_namespace (targets : gset string) (target : string) : bool :=
  Str.contains "." target
  && negb (bool_decide ((Str.split1 "." target).1 ∈ targets)).

(** The state [App.__init__] establishes for the attributes that no
    method of [App] changes the shape of. *)
Definition well_formed (s : AppState) : Prop :=
  _action_targets s = {[ "app"%string; "view"%string ]} /\ _view_stack s ≠ [].

(** ** Observations on layer regions *)

(** The coordinates and extent of a region across the axis of an edge. *)
Definition cross_axis (e : DockEdge) (r : Region) : Z * Z :=
  match e with
  | top | bottom => (region_x r, region_width r)
  | left | right => (region_y r, region_height r)
  end.

(** Two nested layouts agree on a widget. *)
Definition same_layout (sub1 sub2 : Widget -> Z -> Z -> Point -> LayoutMap)
    (w : Widget) : Prop :=
  forall width height offset,
    sub1 w width height offset = sub2 w width height offset.

(** ** The layout engine as it runs

    [generate_map] once more, statement by statement, over the objects it
    works on: the list [self.docks] with the docks and widgets it holds,
    the variables [width] and [height] (parameters that the loop rebinds),
    and the dictionaries [map] and [layers] it creates.  Here a call
    returns, with its result, the object it was called on as the call
    leaves it. *)

Module DockLayoutImp.

Import DockLayout.

Record Frame : Type := mkFrame {
  f_docks : list Dock;
  f_width : Z;
  f_height : Z;
  f_map : LayoutMap;
  f_layers : Layers
}.

Definition set_docks (v : list Dock) (f : Frame) : Frame :=
  mkFrame v (f_width f) (f_height f) (f_map f) (f_layers f).
Definition set_size (w h : Z) (f : Frame) : Frame :=
  mkFrame (f_docks f) w h (f_map f) (f_layers f).
Definition set_map (v : LayoutMap) (f : Frame) : Frame :=
  mkFrame (f_docks f) (f_width f) (f_height f) v (f_layers f).
Definition set_layers (v : Layers) (f : Frame) : Frame :=
  mkFrame (f_docks f) (f_width f) (f_height f) (f_map f) v.

(** The widget [j] of the dock [i] of a dock list becomes [w]: what a
    method that changed the widget it was called on would leave in the
    list that holds it. *)
Definition store_widget (i j : nat) (w : Widget) (docks : list Dock)
    : list Dock :=
  match docks !! i with
  | Some (MkDock e ws k) => <[i := MkDock e (<[j := w]> ws) k]> docks
  | None => docks
  end.

Section Engine.

Variable ratio_resolve : Z -> list DockOptions -> list Z.

(** The call [widget.layout.generate_map(...)] on a view: the map it
    returns and the view as the call leaves it. *)
Variable sub_call : Widget -> Z -> Z -> Point -> LayoutMap * Widget.

(** [add_widget] for the widget [j] of the dock [i]. *)
Definition add_widget (offset : Point) (i j : nat) (widget : Widget)
    (region : Region) (order : Z * nat) (f : Frame) : Frame :=
  let region := region_add (region_add region offset) (layout_offset widget) in
  let f := set_map (<[wid widget := mkMapRegion region order]> (f_map f)) f in
  if is_view widget then
    let '(sub_map, widget') :=
      sub_call widget (region_width region) (region_height region)
               (region_origin region) in
    let f := set_docks (store_widget i j widget' (f_docks f)) f in
    set_map (sub_map ∪ f_map f) f
  else f.

(** The loop over [zip(dock.widgets, sizes)] of the dock [i], from its
    widget [j] on; it returns [total] and the frame. *)
Fixpoint walk (offset : Point) (e : DockEdge) (r : Region) (order : Z * nat)
    (i j : nat) (ws : list Widget) (sizes : list Z)
    (render remaining total : Z) (f : Frame) {struct ws} : Z * Frame :=
  match ws, sizes with
  | widget :: ws', size :: sizes' =>
      if negb (visible widget)
      then walk offset e r order i (S j) ws' sizes' render remaining total f
      else
        let size := Z.min remaining size in
        if size =? 0 then (total, f)
        else
          walk offset e r order i (S j) ws' sizes'
               (advance e render size) (Z.max 0 (remaining - size))
               (total + size)
               (add_widget offset i j widget (placed e r render size) order f)
  | _, _ => (total, f)
  end.

(** The body of the loop over [enumerate(self.docks)]; the assignment
    [x, y, width, height = region] rebinds [width] and [height]. *)
Definition dock_step (layout_region : Region) (offset : Point)
    (index : nat) (dock : Dock) (f : Frame) : Frame :=
  let options := dock_options dock in
  let region := layer layout_region (f_layers f) (z dock) in
  let f := set_layers (<[z dock := region]> (f_layers f)) f in
  if negb (region_bool region) then f
  else
    let order := (z dock, index) in
    let x := region_x region in
    let y := region_y region in
    let f := set_size (region_width region) (region_height region) f in
    let extent :=
      match edge dock with
      | top | bottom => f_height f
      | left | right => f_width f
      end in
    let sizes := ratio_resolve extent options in
    let '(total, f) :=
      walk offset (edge dock) region order index 0%nat (widgets dock) sizes
           (render_start (edge dock) region)
           (axis_extent (edge dock) region) 0 f in
    let region :=
      match edge dock with
      | top => mkRegion x (y + total) (f_width f) (f_height f - total)
      | bottom => mkRegion x y (f_width f) (f_height f - total)
      | left => mkRegion (x + total) y (f_width f - total) (f_height f)
      | right => mkRegion x y (f_width f - total) (f_height f)
      end in
    set_layers (<[z dock := region]> (f_layers f)) f.

Fixpoint dock_loop (layout_region : Region) (offset : Point)
    (index : nat) (docks : list Dock) (f : Frame) : Frame :=
  match docks with
  | [] => f
  | dock :: rest =>
      dock_loop layout_region offset (S index) rest
                (dock_step layout_region offset index dock f)
  end.

(** The method on an object whose [docks] attribute is [self_docks]: the
    map it returns and [self.docks] after the call. *)
Definition generate_docks (self_docks : list Dock) (width height : Z)
    (offset : Point) : LayoutMap * list Dock :=
  let layout_region := mkRegion 0 0 width height in
  let f :=
    dock_loop layout_region offset 0%nat self_docks
              (mkFrame self_docks width height ∅ ∅) in
  (f_map f, f_docks f).

End Engine.

(** The call on the layout of a view, which is the same method. *)
Fixpoint call_layout (ratio_resolve : Z -> list DockOptions -> list Z)
    (widget : Widget) {struct widget}
    : Z -> Z -> Point -> LayoutMap * Widget :=
  match widget with
  | MkWidget attrs (Some docks) =>
      fun width height offset =>
        let '(m, docks') :=
          generate_docks ratio_resolve (call_layout ratio_resolve) docks
                         width height offset in
        (m, MkWidget attrs (Some docks'))
  | MkWidget attrs None => fun _ _ _ => (∅, MkWidget attrs None)
  end.

Definition generate_map (ratio_resolve : Z -> list DockOptions -> list Z)
    (self_docks : list Dock) (width height : Z) (offset : Point)
    : LayoutMap * list Dock :=
  generate_docks ratio_resolve (call_layout ratio_resolve) self_docks
                 width height offset.

End DockLayoutImp.

(** A call on the layout of [w] returns the map of the nested layout
    [sub_layout] and leaves [w] as it was. *)
Definition returns_unchanged
    (sub_call : Widget -> Z -> Z -> Point -> LayoutMap * Widget)
    (sub_layout : Widget -> Z -> Z -> Point -> LayoutMap) (w : Widget) : Prop :=
  forall width height offset,
    sub_call w width height offset = (sub_layout w width height offset, w).

(** A call of the method on a [DockLayout] object: the map it returns and
    the [docks] attribute of the object after the call. *)
Definition call_generate_map (ratio_resolve : Z -> list DockOptions -> list Z)
    (self_docks : list Dock) (width height : Z) (offset : Point)
    : LayoutMap * list Dock :=
  DockLayoutImp.generate_map ratio_resolve self_docks width height offset.

(** ** Sample objects *)

(** A widget that is not a view, with the default layout attributes
    (fraction 1, minimum size 1, no offset). *)
Definition plain_widget (id : nat) (focusable vis : bool) (sz : option Z)
    : Widget :=
  MkWidget (mkWidgetAttrs id focusable vis sz 1 1 (mkPoint 0 0)) None.

(** A resolver that answers with the given sizes, standing for
    [ratio_resolve] on an input for which it yields them. *)
Definition resolve_sizes (sizes : list Z) : Z -> list DockOptions -> list Z :=
  fun _ _ => sizes.

(** A dock list with a nested view: a left dock that holds a view whose
    own layout docks a widget at the top. *)
Definition nested_docks_sample : list Dock :=
  [MkDock left
     [MkWidget (mkWidgetAttrs 6 false true (Some 40) 1 1 (mkPoint 0 0))
        (Some [MkDock top [plain_widget 7 false true (Some 5)] 0])]
     0].

(** No nested layout: for docks that hold no view. *)
Definition no_sub_layout : Widget -> Z -> Z -> Point -> LayoutMap :=
  fun _ _ _ _ => ∅.

(** Two focusable widgets and an application in which the first holds
    the focus. *)
Definition widget_a : Widget := plain_widget 1 true true None.
Definition widget_b : Widget := plain_widget 2 true true None.
Definition root_view : Widget :=
  MkWidget (mkWidgetAttrs 0 false true None 1 1 (mkPoint 0 0)) (Some []).
Definition app_focus_a : AppState := set_focused (Some widget_a) (App.init root_view).

(** An application in which the pointer is over the first widget. *)
Definition app_over_a : AppState :=
  set_mouse_over_attr (Some widget_a) (App.init root_view).

(** An oracle under which every [Leave] notification raises. *)
Definition leave_raises (eff : Effect) : option string :=
  match eff with
  | ForwardEvent _ events.Leave | PostMessage _ events.Leave =>
      Some "RuntimeError"%string
  | _ => None
  end.




(** The application after [bind("q,ctrl+c", "quit")], as in the sample
    application of [app.py]. *)
Definition app_bound_q : AppState :=
  (App.bind "q,ctrl+c" "quit" "" (App.init root_view)).1.2.

(** Three visible widgets of one dock. *)
Definition widget_1 : Widget := plain_widget 1 false true None.
Definition widget_2 : Widget := plain_widget 2 false true None.
Definition widget_3 : Widget := plain_widget 3 false true None.

(** The sliding panel of the sample application: a left dock of size 40
    on layer 1. *)
Definition bar_dock : Dock :=
  MkDock left [plain_widget 4 false true (Some 40)] 1.

(** ** Further observations on the layout engine *)

Module DockWalk.

Import DockLayout.

(** The widgets of [zip(dock.widgets, sizes)] that are visible, with the
    sizes resolved for them. *)
Fixpoint visible_pairs (ws : list Widget) (sizes : list Z)
    : list Widget * list Z :=
  match ws, sizes with
  | widget :: ws', size :: sizes' =>
      let '(vw, vs) := visible_pairs ws' sizes' in
      if visible widget then (widget :: vw, size :: vs) else (vw, vs)
  | _, _ => ([], [])
  end.

(** The calls [add_widget(widget, region, order)] that the walk over one
    dock makes, oldest first, each with the clamped size it consumed. *)
Fixpoint placements (e : DockEdge) (r : Region) (ws : list Widget)
    (sizes : list Z) (render remaining : Z) {struct ws}
    : list (Widget * Z * Region) :=
  match ws, sizes with
  | widget :: ws', size :: sizes' =>
      if negb (visible widget) then placements e r ws' sizes' render remaining
      else
        let size := Z.min remaining size in
        if size =? 0 then []
        else
          (widget, size, placed e r render size)
          :: placements e r ws' sizes' (advance e render size)
                        (Z.max 0 (remaining - size))
  | _, _ => []
  end.

(** The sum of the sizes consumed by a list of placements. *)
Definition consumed (l : list (Widget * Z * Region)) : Z :=
  foldr (fun p acc => p.1.2 + acc) 0 l.

(** Where a region starts along the axis of an edge, and how far it
    extends. *)
Definition axis_start (e : DockEdge) (r : Region) : Z :=
  match e with
  | top | bottom => region_y r
  | left | right => region_x r
  end.

(** Where the placement that follows placements of total size [before]
    starts, for a walk whose cursor began at [render]. *)
Definition tile_start (e : DockEdge) (render before size : Z) : Z :=
  match e with
  | top | left => render + before
  | bottom | right => render - before - size
  end.

(** Moving a map entry by an offset. *)
Definition translate (d : Point) (mr : MapRegion) : MapRegion :=
  mkMapRegion (region_add (map_region mr) d) (map_order mr).

(** A nested layout that places its widgets relative to the offset it is
    given. *)
Definition relative_layout (sub : Widget -> Z -> Z -> Point -> LayoutMap)
    (w : Widget) : Prop :=
  forall width height offset,
    sub w width height offset
    = translate offset <$> sub w width height (mkPoint 0 0).

(** An entry [id := mr] is the one [add_widget] writes for [w] under the
    paint order [order], or one that the nested layout of the view [w]
    returned. *)
Definition entry_of (sub : Widget -> Z -> Z -> Point -> LayoutMap)
    (w : Widget) (order : Z * nat) (id : nat) (mr : MapRegion) : Prop :=
  (wid w = id /\ map_order mr = order)
  \/ (is_view w = true
      /\ exists width height offset, sub w width height offset !! id = Some mr).


End DockWalk.

(** An oracle under which posting [Blur] raises, and one under which
    stopping the animator does. *)
Definition blur_raises (eff : Effect) : option string :=
  match eff with
  | PostMessage _ events.Blur => Some "RuntimeError"%string
  | _ => None
  end.

(** The two docks of the overlay: a left dock on layer 0 and the sliding
    panel on layer 1. *)
Definition overlay_docks_sample : list Dock :=
  [MkDock left [plain_widget 5 false true (Some 40)] 0; bar_dock].

(** * Properties of the layout engine *)

Module DockLayoutProps.

Import DockLayout.

Section Engine.

Variable ratio_resolve : Z -> list DockOptions -> list Z.
Variable sub_layout : Widget -> Z -> Z -> Point -> LayoutMap.

Abbreviation walk' := (walk sub_layout).
Abbreviation dock_step' := (dock_step ratio_resolve sub_layout).
Abbreviation dock_loop' := (dock_loop ratio_resolve sub_layout).

Lemma layer_insert_eq layout_region layers k r :
  layer layout_region (<[k := r]> layers) k = r.
Proof. unfold layer. by rewrite lookup_insert_eq. Qed.

Lemma layer_insert_ne layout_region layers k k' r :
  k ≠ k' ->
  layer layout_region (<[k := r]> layers) k' = layer layout_region layers k'.
Proof. intros Hne. unfold layer. by rewrite lookup_insert_ne. Qed.

(** What the walk consumes is taken from [remaining]. *)
Lemma walk_total offset e r order ws : forall sizes st,
  Forall (fun s => 0 <= s) sizes ->
  0 <= remaining st ->
  let st' := walk' offset e r order ws sizes st in
  total st' + remaining st' = total st + remaining st
  /\ 0 <= remaining st' /\ total st <= total st'.
Proof.
  induction ws as [|w ws IH]; intros sizes st Hs Hr; simpl.
  - destruct sizes; lia.
  - destruct sizes as [|s sizes]; [lia|].
    inversion Hs as [|? ? Hs0 Hs']; subst.
    destruct (visible w); simpl.
    + destruct (Z.eqb_spec (remaining st `min` s) 0) as [|Hnz]; [lia|].
      specialize (IH sizes
        (mkWalk (advance e (render st) (remaining st `min` s))
                (0 `max` (remaining st - remaining st `min` s))
                (total st + remaining st `min` s)
                (add_widget sub_layout offset w
                   (placed e r (render st) (remaining st `min` s))
                   order (walk_map st))) Hs').
      simpl in IH. lia.
    + apply IH; assumption.
Qed.

Lemma dock_step_other layout_region offset index dock map layers k :
  k ≠ z dock ->
  layer layout_region
    (dock_step' layout_region offset index dock (map, layers)).2 k
  = layer layout_region layers k.
Proof.
  intros Hne. unfold dock_step.
  destruct (region_bool _); simpl.
  - rewrite !layer_insert_ne by congruence. reflexivity.
  - rewrite layer_insert_ne by congruence. reflexivity.
Qed.

Lemma dock_loop_other layout_region offset k docks : forall index st,
  Forall (fun dock => z dock ≠ k) docks ->
  layer layout_region (dock_loop' layout_region offset index docks st).2 k
  = layer layout_region st.2 k.
Proof.
  induction docks as [|dock docks IH]; intros index [map layers] Hz; simpl.
  - reflexivity.
  - inversion Hz as [|? ? Hd Hz']; subst.
    rewrite IH by assumption.
    apply dock_step_other. congruence.
Qed.

Lemma shrink_cross e r t : cross_axis e (shrink e r t) = cross_axis e r.
Proof. destruct e; reflexivity. Qed.

Lemma shrink_axis e r t :
  axis_extent e (shrink e r t) = axis_extent e r - t.
Proof. destruct e; reflexivity. Qed.


(** The dock's own layer after one step, with what the walk consumed
    written out. *)
Lemma dock_step_own_explicit layout_region offset index dock map layers :
  let before := layer layout_region layers (z dock) in
  let consumed :=
    total (walk' offset (edge dock) before (z dock, index) (widgets dock)
                 (ratio_resolve (axis_extent (edge dock) before)
                                (dock_options dock))
                 (mkWalk (render_start (edge dock) before)
                         (axis_extent (edge dock) before) 0 map)) in
  layer layout_region
    (dock_step' layout_region offset index dock (map, layers)).2 (z dock)
  = (if region_bool before then
       match edge dock with
       | top =>
           mkRegion (region_x before) (region_y before + consumed)
                    (region_width before) (region_height before - consumed)
       | bottom =>
           mkRegion (region_x before) (region_y before)
                    (region_width before) (region_height before - consumed)
       | left =>
           mkRegion (region_x before + consumed) (region_y before)
                    (region_width before - consumed) (region_height before)
       | right =>
           mkRegion (region_x before) (region_y before)
                    (region_width before - consumed) (region_height before)
       end
     else before).
Proof.
  intros before consumed. unfold dock_step. fold before.
  destruct (region_bool before); simpl.
  - rewrite layer_insert_eq. fold consumed.
    destruct (edge dock); reflexivity.
  - apply layer_insert_eq.
Qed.

(** C4: in a run of [generate_map] a layer that none of the docks
    processed so far is on is still the full viewport; one dock leaves the
    remaining region of every other layer as it was, and cuts what its
    walk consumed off its own layer's region at the docked edge, along the
    docked axis only; when the sizes resolved for the dock and the extent
    of the region are not negative, what is consumed lies between zero and
    that extent, so the region only shrinks; over a whole run, docks at
    other z values leave a layer's region untouched. *)
Theorem layers_are_independent width height offset index dock map layers :
  let layout_region := mkRegion 0 0 width height in
  let before := layer layout_region layers (z dock) in
  let sizes :=
    ratio_resolve (axis_extent (edge dock) before) (dock_options dock) in
  let consumed :=
    total (walk' offset (edge dock) before (z dock, index) (widgets dock)
                 sizes
                 (mkWalk (render_start (edge dock) before)
                         (axis_extent (edge dock) before) 0 map)) in
  let after := (dock_step' layout_region offset index dock (map, layers)).2 in
  (forall docks,
      generate_docks ratio_resolve sub_layout docks width height offset
      = (dock_loop' layout_region offset 0%nat docks (∅, ∅)).1)
  /\ (forall docks k,
        Forall (fun d => z d ≠ k) docks ->
        layer layout_region
              (dock_loop' layout_region offset 0%nat docks (∅, ∅)).2 k
        = layout_region)
  /\ (forall k, k ≠ z dock ->
        layer layout_region after k = layer layout_region layers k)
  /\ layer layout_region after (z dock)
     = (if region_bool before then
          match edge dock with
          | top =>
              mkRegion (region_x before) (region_y before + consumed)
                       (region_width before) (region_height before - consumed)
          | bottom =>
              mkRegion (region_x before) (region_y before)
                       (region_width before) (region_height before - consumed)
          | left =>
              mkRegion (region_x before + consumed) (region_y before)
                       (region_width before - consumed) (region_height before)
          | right =>
              mkRegion (region_x before) (region_y before)
                       (region_width before - consumed) (region_height before)
          end
        else before)
  /\ (Forall (fun s => 0 <= s) sizes ->
      0 <= axis_extent (edge dock) before ->
      0 <= consumed <= axis_extent (edge dock) before)
  /\ (forall docks i st k,
        Forall (fun d => z d ≠ k) docks ->
        layer layout_region (dock_loop' layout_region offset i docks st).2 k
        = layer layout_region st.2 k).
Proof.
  intros layout_region before sizes consumed after.
  split; [reflexivity|].
  split.
  { intros docks k Hz. rewrite dock_loop_other by exact Hz. reflexivity. }
  split; [intros k Hk; apply dock_step_other; assumption|].
  split; [apply dock_step_own_explicit|].
  split.
  - intros Hs Hext.
    pose proof (walk_total offset (edge dock) before (z dock, index)
                  (widgets dock) sizes
                  (mkWalk (render_start (edge dock) before)
                          (axis_extent (edge dock) before) 0 map)
                  Hs Hext) as Hw.
    simpl in Hw. fold consumed in Hw. lia.
  - intros docks i st k Hz. apply dock_loop_other. assumption.
Qed.

(** C5: in the walk over one dock, once a visible widget's size clamped
    to the remaining capacity is zero, the walk ends as if the dock
    stopped just before that widget, whatever capacity remains; so of
    three visible widgets whose second clamps to zero only the first is
    placed. *)
Theorem zero_size_stops_dock offset e r order :
  (forall pre_w pre_s w s post_w post_s st,
      length pre_w = length pre_s ->
      visible w = true ->
      Z.min (remaining (walk' offset e r order pre_w pre_s st)) s = 0 ->
      walk' offset e r order (pre_w ++ w :: post_w) (pre_s ++ s :: post_s) st
      = walk' offset e r order pre_w pre_s st)
  /\ (forall a b c sa sb sc st,
        visible a = true -> visible b = true ->
        Z.min (remaining st) sa ≠ 0 ->
        Z.min (Z.max 0 (remaining st - Z.min (remaining st) sa)) sb = 0 ->
        walk_map (walk' offset e r order [a; b; c] [sa; sb; sc] st)
        = add_widget sub_layout offset a
            (placed e r (render st) (Z.min (remaining st) sa)) order
            (walk_map st)).
Proof.
  split.
  - induction pre_w as [|p pre_w IH]; intros pre_s w s post_w post_s st Hlen Hv Hz.
    + destruct pre_s; [|discriminate]. simpl in *.
      rewrite Hv. simpl. rewrite Hz. reflexivity.
    + destruct pre_s as [|q pre_s]; [discriminate|].
      injection Hlen as Hlen. simpl in *.
      destruct (visible p); simpl in *.
      * destruct (remaining st `min` q =? 0); [reflexivity|].
        apply IH; assumption.
      * apply IH; assumption.
  - intros a b c sa sb sc st Ha Hb Hsa Hsb. simpl.
    rewrite Ha, Hb. simpl.
    destruct (Z.eqb_spec (remaining st `min` sa) 0) as [|_]; [contradiction|].
    simpl. rewrite Hsb. reflexivity.
Qed.

End Engine.

(** *** The map depends on the resolver through its answers only *)

(** Induction on widgets that reaches the widgets docked in a view. *)
Section WidgetInduction.

Variable P : Widget -> Prop.
Hypothesis plain_case : forall attrs, P (MkWidget attrs None).
Hypothesis view_case :
  forall attrs docks,
    Forall (fun dock => Forall P (widgets dock)) docks ->
    P (MkWidget attrs (Some docks)).

Fixpoint widget_nested_ind (w : Widget) : P w :=
  match w with
  | MkWidget attrs None => plain_case attrs
  | MkWidget attrs (Some docks) =>
      view_case attrs docks
        ((fix docks_ok (ds : list Dock)
            : Forall (fun dock => Forall P (widgets dock)) ds :=
            match ds with
            | [] => @List.Forall_nil _ _
            | d :: ds' =>
                @List.Forall_cons _ _ d ds'
                  (match d return Forall P (widgets d) with
                   | MkDock _ ws _ =>
                       (fix widgets_ok (l : list Widget) : Forall P l :=
                          match l with
                          | [] => @List.Forall_nil _ _
                          | w' :: l' =>
                              @List.Forall_cons _ _ w' l' (widget_nested_ind w')
                                          (widgets_ok l')
                          end) ws
                   end)
                  (docks_ok ds')
            end) docks)
  end.

End WidgetInduction.

Section Resolvers.

Variables rr1 rr2 : Z -> list DockOptions -> list Z.
Hypothesis same_answers : forall t options, rr1 t options = rr2 t options.

Variables sub1 sub2 : Widget -> Z -> Z -> Point -> LayoutMap.

Abbreviation same_sub := (same_layout sub1 sub2).

Lemma walk_ext offset e r order ws : forall sizes st,
  Forall same_sub ws ->
  walk sub1 offset e r order ws sizes st
  = walk sub2 offset e r order ws sizes st.
Proof.
  induction ws as [|w ws IH]; intros sizes st Hsub; [reflexivity|].
  inversion Hsub as [|? ? Hw Hws]; subst.
  destruct sizes as [|sz sizes]; [reflexivity|]. simpl.
  destruct (visible w); simpl; [|apply IH, Hws].
  destruct (remaining st `min` sz =? 0); [reflexivity|].
  unfold add_widget at 2. rewrite <- Hw. apply IH, Hws.
Qed.

Lemma dock_loop_ext layout_region offset docks : forall index st,
  Forall (fun dock => Forall same_sub (widgets dock)) docks ->
  dock_loop rr1 sub1 layout_region offset index docks st
  = dock_loop rr2 sub2 layout_region offset index docks st.
Proof.
  induction docks as [|dock docks IH]; intros index st Hsub; [reflexivity|].
  inversion Hsub as [|? ? Hd Hds]; subst. simpl.
  rewrite IH by exact Hds. f_equal.
  destruct st as [map layers]. unfold dock_step.
  destruct (region_bool _); simpl; [|reflexivity].
  rewrite same_answers, (walk_ext _ _ _ _ _ _ _ Hd). reflexivity.
Qed.

End Resolvers.

Lemma layout_of_ext rr1 rr2 :
  (forall t options, rr1 t options = rr2 t options) ->
  forall w, same_layout (layout_of rr1) (layout_of rr2) w.
Proof.
  intros Hsame.
  apply (widget_nested_ind (same_layout (layout_of rr1) (layout_of rr2))).
  - intros attrs width height offset. reflexivity.
  - intros attrs docks Hdocks width height offset. simpl.
    unfold generate_docks. f_equal.
    apply dock_loop_ext; assumption.
Qed.

Lemma generate_map_ext rr1 rr2 docks width height offset :
  (forall t options, rr1 t options = rr2 t options) ->
  generate_map rr1 docks width height offset
  = generate_map rr2 docks width height offset.
Proof.
  intros Hsame. unfold generate_map, generate_docks. f_equal.
  apply dock_loop_ext; [exact Hsame|].
  apply Forall_forall. intros dock _.
  apply Forall_forall. intros w _.
  apply layout_of_ext, Hsame.
Qed.

(** *** The method as it runs: what it leaves of its object *)

Lemma store_widget_same docks i j dock w :
  docks !! i = Some dock ->
  widgets dock !! j = Some w ->
  DockLayoutImp.store_widget i j w docks = docks.
Proof.
  intros Hd Hw. unfold DockLayoutImp.store_widget. rewrite Hd.
  destruct dock as [e ws k]. simpl in Hw.
  rewrite (list_insert_id ws j w Hw). apply list_insert_id. exact Hd.
Qed.

Section Run.

Variable ratio_resolve : Z -> list DockOptions -> list Z.
Variable sub_call : Widget -> Z -> Z -> Point -> LayoutMap * Widget.
Variable sub_layout : Widget -> Z -> Z -> Point -> LayoutMap.

Abbreviation call_returns := (returns_unchanged sub_call sub_layout).

Lemma add_widget_run offset i j dock w region order f :
  DockLayoutImp.f_docks f !! i = Some dock ->
  widgets dock !! j = Some w ->
  call_returns w ->
  DockLayoutImp.add_widget sub_call offset i j w region order f
  = DockLayoutImp.set_map
      (add_widget sub_layout offset w region order (DockLayoutImp.f_map f)) f.
Proof.
  intros Hd Hw Hcall. unfold DockLayoutImp.add_widget, add_widget.
  destruct (is_view w); [|reflexivity].
  rewrite Hcall. simpl.
  rewrite (store_widget_same _ i j dock w Hd Hw).
  destruct f; reflexivity.
Qed.

Lemma walk_run offset e r order i dock ws :
  forall j sizes render remaining total f,
    DockLayoutImp.f_docks f !! i = Some dock ->
    (forall k w, ws !! k = Some w -> widgets dock !! (j + k)%nat = Some w) ->
    Forall call_returns ws ->
    DockLayoutImp.walk sub_call offset e r order i j ws sizes
                       render remaining total f
    = let st :=
        walk sub_layout offset e r order ws sizes
             (mkWalk render remaining total (DockLayoutImp.f_map f)) in
      (DockLayout.total st, DockLayoutImp.set_map (walk_map st) f).
Proof.
  induction ws as [|w ws IH];
    intros j sizes render remaining total f Hd Hpos Hcall.
  { destruct sizes; destruct f; reflexivity. }
  destruct sizes as [|sz sizes]; [destruct f; reflexivity|].
  inversion Hcall as [|? ? Hw Hws]; subst.
  assert (forall k w', ws !! k = Some w' ->
                       widgets dock !! (S j + k)%nat = Some w') as Hpos'.
  { intros k w' Hk. replace (S j + k)%nat with (j + S k)%nat by lia.
    apply Hpos. exact Hk. }
  cbn [DockLayoutImp.walk walk].
  destruct (visible w); cbn [negb].
  - cbn [DockLayout.remaining]. destruct (remaining `min` sz =? 0);
      [destruct f; reflexivity|].
    rewrite (add_widget_run offset i j dock w _ order f Hd); [| |exact Hw].
    + rewrite IH; [reflexivity|exact Hd|exact Hpos'|exact Hws].
    + rewrite <- (Hpos 0%nat w eq_refl). f_equal. lia.
  - apply IH; assumption.
Qed.

Lemma dock_step_run layout_region offset index dock f :
  DockLayoutImp.f_docks f !! index = Some dock ->
  Forall call_returns (widgets dock) ->
  let st :=
    dock_step ratio_resolve sub_layout layout_region offset index dock
              (DockLayoutImp.f_map f, DockLayoutImp.f_layers f) in
  exists w h,
    DockLayoutImp.dock_step ratio_resolve sub_call layout_region offset
                            index dock f
    = DockLayoutImp.mkFrame (DockLayoutImp.f_docks f) w h st.1 st.2.
Proof.
  intros Hd Hcall. unfold DockLayoutImp.dock_step, dock_step.
  destruct (region_bool _); cbn [negb].
  - set (region := layer layout_region (DockLayoutImp.f_layers f) (z dock)).
    rewrite (walk_run offset (edge dock) region (z dock, index) index dock);
      [|exact Hd|intros k w Hk; exact Hk|exact Hcall].
    destruct (edge dock); eexists _, _; reflexivity.
  - exists (DockLayoutImp.f_width f), (DockLayoutImp.f_height f).
    destruct f; reflexivity.
Qed.

Lemma dock_loop_run layout_region offset docks : forall index f,
  (forall k dock, docks !! k = Some dock ->
                  DockLayoutImp.f_docks f !! (index + k)%nat = Some dock) ->
  Forall (fun dock => Forall call_returns (widgets dock)) docks ->
  let st :=
    dock_loop ratio_resolve sub_layout layout_region offset index docks
              (DockLayoutImp.f_map f, DockLayoutImp.f_layers f) in
  exists w h,
    DockLayoutImp.dock_loop ratio_resolve sub_call layout_region offset
                            index docks f
    = DockLayoutImp.mkFrame (DockLayoutImp.f_docks f) w h st.1 st.2.
Proof.
  induction docks as [|dock docks IH]; intros index f Hpos Hcall.
  { exists (DockLayoutImp.f_width f), (DockLayoutImp.f_height f).
    destruct f; reflexivity. }
  inversion Hcall as [|? ? Hd Hds]; subst.
  cbn [DockLayoutImp.dock_loop dock_loop].
  destruct (dock_step_run layout_region offset index dock f)
    as (w & h & Hstep); [|exact Hd|].
  { rewrite <- (Hpos 0%nat dock eq_refl). f_equal. lia. }
  rewrite Hstep.
  destruct (dock_step ratio_resolve sub_layout layout_region offset index
              dock (DockLayoutImp.f_map f, DockLayoutImp.f_layers f))
    as [map' layers'].
  cbn [fst snd].
  destruct (IH (S index)
              (DockLayoutImp.mkFrame (DockLayoutImp.f_docks f) w h map' layers'))
    as (w' & h' & Hloop); [|exact Hds|].
  { intros k d Hk. cbn [DockLayoutImp.f_docks].
    replace (S index + k)%nat with (index + S k)%nat by lia.
    apply Hpos. exact Hk. }
  exists w', h'. exact Hloop.
Qed.

Lemma generate_docks_run docks width height offset :
  Forall (fun dock => Forall call_returns (widgets dock)) docks ->
  DockLayoutImp.generate_docks ratio_resolve sub_call docks width height offset
  = (generate_docks ratio_resolve sub_layout docks width height offset, docks).
Proof.
  intros Hcall. unfold DockLayoutImp.generate_docks, generate_docks.
  destruct (dock_loop_run (mkRegion 0 0 width height) offset docks 0%nat
              (DockLayoutImp.mkFrame docks width height ∅ ∅))
    as (w & h & Hloop); [|exact Hcall|].
  { intros k dock Hk. exact Hk. }
  cbn zeta. rewrite Hloop. reflexivity.
Qed.

End Run.

Lemma call_layout_returns ratio_resolve w :
  returns_unchanged (DockLayoutImp.call_layout ratio_resolve)
                    (layout_of ratio_resolve) w.
Proof.
  apply (widget_nested_ind
           (returns_unchanged (DockLayoutImp.call_layout ratio_resolve)
                              (layout_of ratio_resolve))).
  - intros attrs width height offset. reflexivity.
  - intros attrs docks Hdocks width height offset.
    cbn [DockLayoutImp.call_layout layout_of].
    rewrite (generate_docks_run ratio_resolve _ (layout_of ratio_resolve))
      by exact Hdocks.
    reflexivity.
Qed.

Lemma generate_map_run ratio_resolve docks width height offset :
  DockLayoutImp.generate_map ratio_resolve docks width height offset
  = (generate_map ratio_resolve docks width height offset, docks).
Proof.
  unfold DockLayoutImp.generate_map, generate_map.
  apply generate_docks_run.
  apply Forall_forall. intros dock _.
  apply Forall_forall. intros w _. apply call_layout_returns.
Qed.

(** C8: a call of [generate_map], run statement by statement on the
    layout object, leaves the object's dock list, the docks and the
    widgets in it (also those of nested views) as they were, although it
    rebinds [width] and [height] and fills its own [map] and [layers]; the
    map it returns is a function of the dock list, the viewport and the
    offset, so a second call on the object as the first left it returns
    the same map, and so does a call in which the resolver gives the same
    answers. *)
Theorem generate_map_pure ratio_resolve docks width height offset :
  let first := call_generate_map ratio_resolve docks width height offset in
  let second := call_generate_map ratio_resolve first.2 width height offset in
  first.2 = docks /\ second.2 = docks /\ second.1 = first.1
  /\ first.1 = generate_map ratio_resolve docks width height offset
  /\ (forall ratio_resolve',
        (forall t options, ratio_resolve' t options = ratio_resolve t options) ->
        (call_generate_map ratio_resolve' docks width height offset).1
        = first.1).
Proof.
  intros first second. subst first second. unfold call_generate_map.
  repeat (rewrite generate_map_run; cbn [fst snd]). repeat split.
  intros ratio_resolve' Hsame. rewrite generate_map_run. cbn [fst].
  apply generate_map_ext, Hsame.
Qed.

Lemma generate_map_pure_witness :
  (call_generate_map (resolve_sizes [40]) nested_docks_sample 100 30
                     (mkPoint 0 0)).2 = nested_docks_sample
  /\ (call_generate_map (fun t options => resolve_sizes [40] (t + 0) options)
                        nested_docks_sample 100 30 (mkPoint 0 0)).1
     = (call_generate_map (resolve_sizes [40]) nested_docks_sample 100 30
                          (mkPoint 0 0)).1.
Proof.
  destruct (generate_map_pure (resolve_sizes [40]) nested_docks_sample 100 30
              (mkPoint 0 0)) as (Hdocks & _ & _ & _ & Hsame).
  split; [exact Hdocks|].
  apply (Hsame (fun t options => resolve_sizes [40] (t + 0) options)).
  reflexivity.
Defined.

Lemma layers_are_independent_witness :
  let layout_region := mkRegion 0 0 100 30 in
  let after :=
    (dock_step (resolve_sizes [40]) no_sub_layout layout_region (mkPoint 0 0)
               2%nat bar_dock (∅, ∅)).2 in
  layer layout_region after 0 = layout_region
  /\ layer layout_region after 1 = mkRegion 40 0 60 30
  /\ 0 <= total
            (walk no_sub_layout (mkPoint 0 0) left layout_region (1, 2%nat)
                  (widgets bar_dock) [40] (mkWalk 0 100 0 ∅)) <= 100.
Proof.
  intros layout_region after.
  destruct (layers_are_independent (resolve_sizes [40]) no_sub_layout
              100 30 (mkPoint 0 0) 2%nat bar_dock ∅ ∅)
    as (_ & Hstart & Hother & Hown & Hbound & _).
  split; [|split].
  - transitivity (layer layout_region ∅ 0); [|apply (Hstart [] 0); constructor].
    apply (Hother 0). discriminate.
  - transitivity
      (mkRegion (0 + total
                       (walk no_sub_layout (mkPoint 0 0) left layout_region
                             (1, 2%nat) (widgets bar_dock) [40]
                             (mkWalk 0 100 0 ∅)))
                0
                (100 - total
                         (walk no_sub_layout (mkPoint 0 0) left layout_region
                               (1, 2%nat) (widgets bar_dock) [40]
                               (mkWalk 0 100 0 ∅)))
                30); [exact Hown|reflexivity].
  - apply Hbound.
    + repeat constructor. discriminate.
    + discriminate.
Defined.

Lemma zero_size_stops_dock_witness :
  let r := mkRegion 0 0 10 10 in
  let m :=
    walk_map
      (walk no_sub_layout (mkPoint 0 0) top r (0, 0%nat)
            [widget_1; widget_2; widget_3] [3; 0; 4]
            (mkWalk 0 10 0 ∅)) in
  m = add_widget no_sub_layout (mkPoint 0 0) widget_1 (mkRegion 0 0 10 3)
                 (0, 0%nat) ∅.
Proof.
  intros r m.
  destruct (zero_size_stops_dock no_sub_layout (mkPoint 0 0) top r (0, 0%nat))
    as [_ Hthree].
  apply (Hthree widget_1 widget_2 widget_3 3 0 4 (mkWalk 0 10 0 ∅));
    [reflexivity|reflexivity|discriminate|reflexivity].
Defined.

(** The same dock through [generate_map]: only the first widget is in
    the map, though seven rows remain. *)
Example three_widgets_second_zero :
  let m :=
    generate_map (resolve_sizes [3; 0; 4])
                 [MkDock top [widget_1; widget_2; widget_3] 0] 10 10
                 (mkPoint 0 0) in
  m !! 1%nat = Some (mkMapRegion (mkRegion 0 0 10 3) (0, 0%nat))
  /\ m !! 2%nat = None /\ m !! 3%nat = None.
Proof. vm_compute. auto. Qed.

(** The overlay of the sample application: after a left dock of size 40
    on layer 0 and one on layer 1, both layers keep 60 columns, and both
    widgets are placed at the left edge, the second painted later. *)
Example overlay_docks :
  let docks :=
    [MkDock left [plain_widget 5 false true (Some 40)] 0; bar_dock] in
  let layout_region := mkRegion 0 0 100 30 in
  let st :=
    dock_loop (resolve_sizes [40]) no_sub_layout layout_region (mkPoint 0 0)
              0%nat docks (∅, ∅) in
  layer layout_region st.2 0 = mkRegion 40 0 60 30
  /\ layer layout_region st.2 1 = mkRegion 40 0 60 30
  /\ st.1 !! 5%nat = Some (mkMapRegion (mkRegion 0 0 40 30) (0, 0%nat))
  /\ st.1 !! 4%nat = Some (mkMapRegion (mkRegion 0 0 40 30) (1, 1%nat)).
Proof. vm_compute. auto. Qed.

End DockLayoutProps.

(** * Properties of the string methods *)

Module StrProps.

Import Str.

Lemma split_nonempty sep s : split sep s ≠ [].
Proof.
  destruct s as [|c s]; simpl; [discriminate|].
  destruct (Ascii.eqb c sep); [discriminate|].
  destruct (split sep s); discriminate.
Qed.

Lemma split_join sep s : join sep (split sep s) = s.
Proof.
  induction s as [|c s IH]; simpl; [reflexivity|].
  destruct (Ascii.eqb_spec c sep) as [->|Hne].
  - pose proof (split_nonempty sep s) as Hn.
    destruct (split sep s) as [|p rest]; [contradiction|].
    simpl. rewrite <- IH. reflexivity.
  - pose proof (split_nonempty sep s) as Hn.
    destruct (split sep s) as [|p rest]; [contradiction|].
    rewrite <- IH. destruct rest; reflexivity.
Qed.

Lemma split_pieces sep s :
  Forall (fun piece => contains sep piece = false) (split sep s).
Proof.
  induction s as [|c s IH]; simpl.
  - repeat constructor.
  - destruct (Ascii.eqb c sep) eqn:Hc.
    + constructor; [reflexivity|exact IH].
    + destruct (split sep s) as [|p rest]; simpl.
      * repeat constructor. simpl. rewrite Hc. reflexivity.
      * inversion IH as [|? ? Hp Hrest]; subst.
        constructor; [|exact Hrest]. simpl. rewrite Hc. exact Hp.
Qed.

Lemma split_no_sep sep s : contains sep s = false -> split sep s = [s].
Proof.
  induction s as [|c s IH]; simpl; [reflexivity|].
  destruct (Ascii.eqb c sep); simpl; [discriminate|].
  intros Hs. rewrite (IH Hs). reflexivity.
Qed.

Lemma append_cons c a b : String.append (String c a) b = String c (String.append a b).
Proof. reflexivity. Qed.

Lemma append_nil b : String.append EmptyString b = b.
Proof. reflexivity. Qed.

Lemma lstrip_spec s :
  exists l, s = String.append l (lstrip s) /\ all_space l = true
            /\ starts_with_space (lstrip s) = false.
Proof.
  induction s as [|c s (l & Hs & Hl & Hst)]; simpl.
  - exists EmptyString. auto.
  - destruct (isspace c) eqn:Hc.
    + exists (String c l). rewrite append_cons. simpl. rewrite Hc, Hl.
      repeat split; [f_equal; exact Hs|exact Hst].
    + exists EmptyString. rewrite append_nil. simpl. auto.
Qed.

Lemma ends_with_space_all_space s :
  s ≠ EmptyString -> ends_with_space s = false -> all_space s = false.
Proof.
  induction s as [|c s IH]; intros Hne Hend; [contradiction|].
  simpl. destruct s as [|d t].
  - simpl in Hend. rewrite Hend. reflexivity.
  - rewrite IH; [apply andb_false_r|discriminate|exact Hend].
Qed.

Lemma all_space_append a b :
  all_space (String.append a b) = all_space a && all_space b.
Proof.
  induction a as [|c a IH]; [reflexivity|].
  rewrite append_cons. simpl. rewrite IH. apply andb_assoc.
Qed.

Lemma rstrip_spec s :
  exists r, s = String.append (rstrip s) r /\ all_space r = true
            /\ ends_with_space (rstrip s) = false
            /\ starts_with_space (rstrip s)
               = starts_with_space s && negb (all_space s).
Proof.
  induction s as [|c s (r & Hs & Hr & Hend & Hst)].
  - exists EmptyString. auto.
  - simpl. destruct (rstrip s) as [|d t] eqn:Ht.
    + rewrite append_nil in Hs. subst r. rewrite Hr.
      destruct (isspace c) eqn:Hc.
      * exists (String c s). rewrite append_nil. simpl. rewrite Hc, Hr. auto.
      * exists s. rewrite append_cons, append_nil. simpl. rewrite Hc. auto.
    + exists r. rewrite append_cons. rewrite <- Hs.
      repeat split; try assumption.
      assert (all_space s = false) as ->.
      { rewrite Hs, all_space_append.
        rewrite (ends_with_space_all_space (String d t)); [reflexivity| |exact Hend].
        discriminate. }
      rewrite andb_false_r. simpl. rewrite andb_true_r. reflexivity.
Qed.

(** [strip] removes whitespace, and only whitespace, from both ends. *)
Lemma strip_spec s :
  exists l r,
    s = String.append l (String.append (strip s) r)
    /\ all_space l = true /\ all_space r = true
    /\ starts_with_space (strip s) = false
    /\ ends_with_space (strip s) = false.
Proof.
  unfold strip.
  destruct (lstrip_spec s) as (l & Hs & Hl & Hst).
  destruct (rstrip_spec (lstrip s)) as (r & Hs' & Hr & Hend & Hst').
  exists l, r. rewrite <- Hs', <- Hs.
  repeat split; try assumption.
  rewrite Hst', Hst. reflexivity.
Qed.

End StrProps.

(** * Properties of the orchestrator *)

Module AppProps.

Import App.

(** Runs the monadic combinators of a goal. *)
Ltac msimpl :=
  cbv [mbind M_bind mret M_ret get modify assign raise call
       try_finally try_except_else];
  cbn [fst snd app opt_widget_eqb negb].

Lemma focus_scan_app t1 : forall pending t2,
  focus_scan pending (t1 ++ t2)
  = match focus_scan pending t1 with
    | Some pending' => focus_scan pending' t2
    | None => None
    end.
Proof.
  induction t1 as [|eff t1 IH]; intros pending t2; simpl; [reflexivity|].
  destruct eff; try apply IH.
  destruct event; try apply IH.
  destruct pending; [reflexivity|apply IH].
Qed.

Section Methods.

Variable raises : Effect -> option string.
Variable parse : string -> string * list string + string.
Variable has_method : Object -> string -> bool.
Variable super_process_messages : M unit.
Variable super_on_event : events.Event -> M unit.
Variable on_load : events.Event -> M unit.

Lemma widget_eqb_sym a b : widget_eqb a b = widget_eqb b a.
Proof. unfold widget_eqb. apply Nat.eqb_sym. Qed.

Lemma opt_widget_eqb_sym a b : opt_widget_eqb a b = opt_widget_eqb b a.
Proof. destruct a, b; simpl; auto using widget_eqb_sym. Qed.

(** ** Focus *)

Section Focus.

Hypothesis posts_return :
  forall target event, raises (PostMessage target event) = None.

Lemma set_focus_step widget s pending :
  focus_inv s pending ->
  exists s' t pending',
    set_focus raises widget s = (Return tt, s', t)
    /\ focus_scan pending t = Some pending'
    /\ focus_inv s' pending'.
Proof.
  intros Hinv. unfold set_focus. msimpl.
  destruct (opt_widget_eqb widget (focused s)) eqn:Heq.
  { exists s, [], pending. auto. }
  destruct widget as [w|].
  - destruct (can_focus w).
    + rewrite opt_widget_eqb_sym in Heq.
      destruct (focused s) as [old|] eqn:Hf; msimpl.
      * rewrite !posts_return, Hf. msimpl. simpl in Heq. rewrite Heq. simpl.
        eexists _, _, _. split; [reflexivity|]. simpl.
        split; [reflexivity|]. intros Hnone. discriminate.
      * rewrite !posts_return, Hf. msimpl.
        eexists _, _, _. split; [reflexivity|]. simpl.
        rewrite (Hinv Hf).
        split; [reflexivity|]. intros Hnone. discriminate.
    + exists s, [], pending. auto.
  - destruct (focused s) as [old|] eqn:Hf; [|discriminate].
    rewrite posts_return.
    eexists _, _, _. split; [reflexivity|]. simpl.
    split; [reflexivity|]. intros _. reflexivity.
Qed.

Lemma set_focus_all_scan calls : forall s pending,
  focus_inv s pending ->
  exists s' t pending',
    set_focus_all raises calls s = (Return tt, s', t)
    /\ focus_scan pending t = Some pending'.
Proof.
  induction calls as [|widget calls IH]; intros s pending Hinv; simpl.
  - exists s, [], pending. auto.
  - destruct (set_focus_step widget s pending Hinv)
      as (s1 & t1 & p1 & Hrun & Hscan & Hinv1).
    destruct (IH s1 p1 Hinv1) as (s2 & t2 & p2 & Hrun2 & Hscan2).
    exists s2, (t1 ++ t2), p2.
    msimpl. rewrite Hrun, Hrun2. split; [reflexivity|].
    rewrite focus_scan_app, Hscan. exact Hscan2.
Qed.

End Focus.

(** C1, as amended: when a focusable widget takes the focus from another
    one, [Blur] is posted to the old holder, then the focus reference is
    set to the new widget, then [Focus] is posted to it; and over any
    sequence of [set_focus] calls no two [Focus] messages are posted
    without a [Blur] between them. *)
Theorem set_focus_order s old w :
  (forall target event, raises (PostMessage target event) = None) ->
  focused s = Some old ->
  can_focus w = true ->
  widget_eqb w old = false ->
  set_focus raises (Some w) s
  = (Return tt, set_focused (Some w) s,
     [PostMessage (PumpWidget old) events.Blur;
      AssignFocused (Some w);
      PostMessage (PumpWidget w) events.Focus])
  /\ (forall calls s0 pending,
        (focused s0 = None -> pending = false) ->
        is_Some (focus_scan pending (set_focus_all raises calls s0).2)).
Proof.
  intros Hpost Hf Hc Hne. split.
  - unfold set_focus. msimpl. rewrite Hf. msimpl.
    rewrite Hne, Hc. msimpl. rewrite !Hpost, Hf. msimpl.
    rewrite widget_eqb_sym, Hne. reflexivity.
  - intros calls s0 pending Hinv.
    destruct (set_focus_all_scan Hpost calls s0 pending Hinv)
      as (s' & t & p' & Hrun & Hscan).
    rewrite Hrun. simpl. rewrite Hscan. eauto.
Qed.

(** ** Pointer-over *)

(** C2: [set_mouse_over(w)] for a widget other than the current holder
    forwards [Leave] to the old holder (when there is one) before [Enter]
    to [w], and leaves [mouse_over] set to [w] whether or not a
    notification raised; [set_mouse_over(None)] leaves it cleared whether
    or not [Leave] raised. *)
Theorem set_mouse_over_commits s w :
  opt_widget_eqb (mouse_over s) (Some w) = false ->
  (exists r,
      set_mouse_over raises (Some w) s
      = (r, set_mouse_over_attr (Some w) s,
         match mouse_over s with
         | Some old =>
             ForwardEvent old events.Leave ::
             (if did_raise (raises (ForwardEvent old events.Leave)) then []
              else [ForwardEvent w events.Enter])
         | None => [ForwardEvent w events.Enter]
         end ++ [AssignMouseOver (Some w)])
      /\ is_raise r
         = match mouse_over s with
           | Some old =>
               did_raise (raises (ForwardEvent old events.Leave))
               || did_raise (raises (ForwardEvent w events.Enter))
           | None => did_raise (raises (ForwardEvent w events.Enter))
           end)
  /\ (forall old,
        mouse_over s = Some old ->
        exists r,
          set_mouse_over raises None s
          = (r, set_mouse_over_attr None s,
             [PostMessage (PumpWidget old) events.Leave; AssignMouseOver None])).
Proof.
  intros Hne. split.
  - unfold set_mouse_over. msimpl. rewrite Hne. msimpl.
    destruct (mouse_over s) as [old|]; msimpl.
    + destruct (raises (ForwardEvent old events.Leave)); msimpl.
      * eexists. split; reflexivity.
      * destruct (raises (ForwardEvent w events.Enter)); msimpl;
          eexists; split; reflexivity.
    + destruct (raises (ForwardEvent w events.Enter)); msimpl;
        eexists; split; reflexivity.
  - intros old Hold. unfold set_mouse_over. msimpl. rewrite Hold.
    destruct (raises (PostMessage (PumpWidget old) events.Leave));
      eexists; reflexivity.
Qed.

(** ** Action dispatch *)

Lemma dispatch_action_trace namespace action_name params s :
  exists r,
    dispatch_action raises has_method namespace action_name params s
    = (r, s,
       if has_method namespace (String.append "action_" action_name)
       then [CallMethod namespace (String.append "action_" action_name) params]
       else [])
    /\ (forall e, r = Raise e ->
          exists name,
            e = Escaped name
            /\ has_method namespace (String.append "action_" action_name) = true
            /\ raises (CallMethod namespace
                         (String.append "action_" action_name) params)
               = Some name).
Proof.
  unfold dispatch_action.
  destruct (has_method _ _) eqn:Hm; msimpl.
  - destruct (raises _) as [name|] eqn:Hr.
    + eexists. split; [reflexivity|]. intros e [= <-]. eauto.
    + eexists. split; [reflexivity|]. intros e [=].
  - eexists. split; [reflexivity|]. intros e [=].
Qed.

(** [action] changes no attribute and performs at most the call of the
    handler. *)
Lemma action_trace act default_namespace s :
  exists r t,
    action raises parse has_method act default_namespace s = (r, s, t)
    /\ Forall (fun eff => is_forward eff = false) t.
Proof.
  unfold action. destruct (parse act) as [[target params]|name].
  - destruct (Str.contains "." target).
    + destruct (Str.split1 "." target) as [destination action_name]. msimpl.
      destruct (bool_decide _); simpl.
      * unfold getattr_self, view.
        destruct (String.eqb destination "view").
        -- msimpl. destruct (last (_view_stack s)) as [v|].
           ++ destruct (dispatch_action_trace (ObjWidget v) action_name
                          params s) as (r & Hrun & _).
              rewrite Hrun. eexists _, _. split; [reflexivity|].
              destruct (has_method _ _); repeat constructor.
           ++ eexists _, _. split; [reflexivity|]. constructor.
        -- eexists _, _. split; [reflexivity|]. constructor.
      * eexists _, _. split; [reflexivity|]. constructor.
    + destruct (dispatch_action_trace (default ObjApp default_namespace)
                  act params s) as (r & Hrun & _).
      rewrite Hrun. eexists _, _. split; [reflexivity|].
      destruct (has_method _ _); repeat constructor.
  - eexists _, _. split; [reflexivity|]. constructor.
Qed.

(** C6, as amended: when the parser returns a target that names a
    namespace outside the registered set, [action] raises [ActionError]
    and calls nothing (it can raise for other reasons as well); and
    [dispatch_action] on an object without the handler [action_<name>]
    returns without a call. *)
Theorem action_error_if_unregistered act default_namespace s target params :
  parse act = inl (target, params) ->
  (bad_namespace (_action_targets s) target = true ->
   action raises parse has_method act default_namespace s
   = (Raise (ActionError "Action namespace {destination} is not known"),
      s, []))
  /\ (forall namespace action_name params' s',
        has_method namespace (String.append "action_" action_name) = false ->
        dispatch_action raises has_method namespace action_name params' s'
        = (Return tt, s', [])).
Proof.
  intros Hparse. split.
  - unfold action, bad_namespace. rewrite Hparse. intros Hbad.
    destruct (Str.contains "." target); [|discriminate].
    simpl in Hbad.
    destruct (Str.split1 "." target) as [destination action_name].
    simpl in Hbad. msimpl. rewrite Hbad. reflexivity.
  - intros namespace action_name params' s' Hm.
    unfold dispatch_action. rewrite Hm. reflexivity.
Qed.

(** ** Event routing *)


(** ** Lifecycle *)


(** ** View stack *)

Lemma push_view_length view s :
  length (_view_stack s) = 1%nat ->
  length (_view_stack (push_view raises view s).1.2) = 1%nat.
Proof.
  intros Hlen. unfold push_view, register. msimpl.
  destruct (raises (StartMessages view)); simpl; [exact Hlen|].
  destruct (raises (PostMessage (PumpWidget view) events.Created)); simpl;
    [exact Hlen|].
  destruct (raises (SetParent view)); simpl; [exact Hlen|].
  destruct (_view_stack s) as [|old rest]; simpl; [discriminate|].
  exact Hlen.
Qed.

(** C9: the view stack is created with one element and [push_view] keeps
    it at one element; when [push_view(v)] returns, the stack is [[v]]:
    the active view is [v] and no other view is left in the stack. *)
Theorem view_stack_singleton root :
  length (_view_stack (init root)) = 1%nat
  /\ (forall views,
        length (_view_stack (push_view_all raises views (init root))) = 1%nat)
  /\ (forall s v,
        length (_view_stack s) = 1%nat ->
        length (_view_stack (push_view raises v s).1.2) = 1%nat
        /\ (raises (StartMessages v) = None ->
            raises (PostMessage (PumpWidget v) events.Created) = None ->
            raises (SetParent v) = None ->
            let s' := (push_view raises v s).1.2 in
            (push_view raises v s).1.1 = Return v
            /\ _view_stack s' = [v]
            /\ (view s').1.1 = Return v
            /\ (forall u, u ∈ _view_stack s' -> u = v))).
Proof.
  split; [reflexivity|]. split.
  - intros views.
    assert (forall s, length (_view_stack s) = 1%nat ->
              length (_view_stack (push_view_all raises views s)) = 1%nat)
      as Hall.
    { induction views as [|v views IH]; intros s Hlen; simpl; [exact Hlen|].
      apply IH, push_view_length, Hlen. }
    apply Hall. reflexivity.
  - intros s v Hlen. split; [apply push_view_length, Hlen|].
    intros Hstart Hpost Hparent. unfold push_view, register, view. msimpl.
    rewrite Hstart, Hpost, Hparent. simpl.
    destruct (_view_stack s) as [|old [|? rest]]; try discriminate.
    simpl. repeat split.
    intros u Hu. apply list_elem_of_singleton in Hu. exact Hu.
Qed.

(** ** Key bindings *)

Lemma set_bindings_twice b b' s :
  set_bindings b (set_bindings b' s) = set_bindings b s.
Proof. reflexivity. Qed.

Lemma bind_all_run action description all_keys : forall s,
  bind_all all_keys action description s
  = (Return tt,
     set_bindings
       (foldl (fun m key => <[key := mkBinding action description]> m)
              (_bindings s) all_keys) s,
     []).
Proof.
  induction all_keys as [|key rest IH]; intros s; simpl.
  - destruct s; reflexivity.
  - msimpl. rewrite IH. reflexivity.
Qed.

Lemma foldl_insert_lookup (b : Binding) all_keys : forall (m : gmap string Binding) k,
  foldl (fun m key => <[key := b]> m) m all_keys !! k
  = if bool_decide (k ∈ all_keys) then Some b else m !! k.
Proof.
  induction all_keys as [|key rest IH]; intros m k; simpl.
  - reflexivity.
  - rewrite IH.
    destruct (bool_decide_reflect (k ∈ rest)) as [Hin|Hnotin].
    + rewrite bool_decide_eq_true_2; [reflexivity|]. by right.
    + destruct (decide (k = key)) as [->|Hne].
      * rewrite lookup_insert_eq.
        rewrite bool_decide_eq_true_2; [reflexivity|]. by left.
      * rewrite lookup_insert_ne by congruence.
        rewrite bool_decide_eq_false_2; [reflexivity|].
        intros Hin. apply elem_of_cons in Hin as [?|?]; contradiction.
Qed.

(** C10: [bind] splits [keys] at the commas, strips the whitespace around
    each piece, and binds every resulting key to the given action and
    description, leaving the other keys as they were; without a comma
    this is the single entry for the stripped string; and binding a key
    again replaces its binding. *)
Theorem bind_binds_every_key s keys action description :
  let binding := mkBinding action description in
  let pieces := Str.split "," keys in
  let all_keys := Str.strip <$> pieces in
  let s' := (bind keys action description s).1.2 in
  Str.join "," pieces = keys
  /\ Forall (fun piece => Str.contains "," piece = false) pieces
  /\ (forall piece,
        exists l r,
          piece = String.append l (String.append (Str.strip piece) r)
          /\ Str.all_space l = true /\ Str.all_space r = true
          /\ Str.starts_with_space (Str.strip piece) = false
          /\ Str.ends_with_space (Str.strip piece) = false)
  /\ (bind keys action description s).1.1 = Return tt
  /\ (forall k,
        _bindings s' !! k
        = if bool_decide (k ∈ all_keys) then Some binding
          else _bindings s !! k)
  /\ (Str.contains "," keys = false ->
      _bindings s' = <[Str.strip keys := binding]> (_bindings s))
  /\ (forall k action2 description2,
        k ∈ all_keys ->
        _bindings (bind keys action2 description2 s').1.2 !! k
        = Some (mkBinding action2 description2)).
Proof.
  intros binding pieces all_keys s'.
  split; [apply StrProps.split_join|].
  split; [apply StrProps.split_pieces|].
  split; [apply StrProps.strip_spec|].
  subst s'. unfold bind. fold pieces. fold all_keys.
  rewrite bind_all_run. simpl.
  split; [reflexivity|].
  split; [apply foldl_insert_lookup|].
  split.
  - intros Hno. subst all_keys pieces.
    rewrite (StrProps.split_no_sep _ _ Hno). reflexivity.
  - intros k action2 description2 Hk.
    rewrite bind_all_run. simpl. rewrite foldl_insert_lookup.
    rewrite bool_decide_eq_true_2; [reflexivity|exact Hk].
Qed.

End Methods.

(** ** The properties at sample inputs *)

Local Open Scope string_scope.

Lemma set_focus_order_witness :
  set_focus never_raises (Some widget_b) app_focus_a
  = (Return tt, set_focused (Some widget_b) app_focus_a,
     [PostMessage (PumpWidget widget_a) events.Blur;
      AssignFocused (Some widget_b);
      PostMessage (PumpWidget widget_b) events.Focus])
  /\ is_Some
       (focus_scan false
          (set_focus_all never_raises
             [Some widget_a; Some widget_b; None; Some widget_a]
             (init root_view)).2).
Proof.
  destruct (set_focus_order never_raises app_focus_a widget_a widget_b)
    as [Horder Hseq]; try reflexivity.
  split; [exact Horder|].
  apply Hseq. intros _. reflexivity.
Defined.

(** C1 as stated fails: in the call that moves the focus from one widget
    to another the focus reference is written before [Focus] is posted,
    not after. *)
Lemma set_focus_writes_before_focus :
  let t := (set_focus never_raises (Some widget_b) app_focus_a).2 in
  ~ (occurs_before is_blur_post is_focus_post t = true
     /\ occurs_before is_focus_post is_focused_write t = true).
Proof. intros t [_ Hafter]. vm_compute in Hafter. discriminate. Qed.

Lemma set_mouse_over_commits_witness :
  mouse_over (set_mouse_over leave_raises (Some widget_b) app_over_a).1.2
  = Some widget_b
  /\ mouse_over (set_mouse_over leave_raises None app_over_a).1.2 = None.
Proof.
  destruct (set_mouse_over_commits leave_raises app_over_a widget_b)
    as [(r & Hrun & _) Hclear]; [reflexivity|].
  destruct (Hclear widget_a eq_refl) as (r' & Hrun').
  rewrite Hrun, Hrun'. split; reflexivity.
Defined.


Lemma action_error_if_unregistered_witness :
  action never_raises parse_bare App_has_method "screen.quit" None
         (init root_view)
  = (Raise (ActionError "Action namespace {destination} is not known"),
     init root_view, [])
  /\ dispatch_action never_raises App_has_method ObjApp "toggle_sidebar" []
                     (init root_view)
     = (Return tt, init root_view, []).
Proof.
  destruct (action_error_if_unregistered never_raises parse_bare
              App_has_method "screen.quit" None (init root_view)
              "screen.quit" [] eq_refl) as [Hraise Hnone].
  split.
  - apply Hraise. reflexivity.
  - apply Hnone. reflexivity.
Defined.

(** C6 as stated fails: [action_bang] of [class App] divides by zero, so
    the action ["bang"], which names no namespace, raises. *)
Lemma action_bang_raises :
  let r :=
    (action App_raises parse_bare App_has_method "bang" None
            (init root_view)).1.1 in
  parse_bare "bang" = inl ("bang", [])
  /\ r = Raise (Escaped "ZeroDivisionError")
  /\ ~ (is_raise r = true
        <-> bad_namespace (_action_targets (init root_view)) "bang" = true).
Proof.
  intros r. split; [reflexivity|]. split; [reflexivity|].
  intros [Hraise _]. specialize (Hraise eq_refl). discriminate.
Qed.



Lemma view_stack_singleton_witness :
  _view_stack (push_view never_raises widget_a (init root_view)).1.2
  = [widget_a].
Proof.
  destruct (view_stack_singleton never_raises root_view) as (_ & _ & Hpush).
  destruct (Hpush (init root_view) widget_a eq_refl) as [_ Hret].
  apply (Hret eq_refl eq_refl eq_refl).
Defined.

Lemma bind_binds_every_key_witness :
  _bindings app_bound_q !! "ctrl+c" = Some (mkBinding "quit" "")
  /\ _bindings (bind " q " "quit" "" (init root_view)).1.2
     = {[ "q" := mkBinding "quit" "" ]}.
Proof.
  destruct (bind_binds_every_key (init root_view) "q,ctrl+c" "quit" "")
    as (_ & _ & _ & _ & Hlookup & _).
  destruct (bind_binds_every_key (init root_view) " q " "quit" "")
    as (_ & _ & _ & _ & _ & Hsingle & _).
  split.
  - apply (Hlookup "ctrl+c").
  - apply (Hsingle eq_refl).
Defined.

End AppProps.


(** * Further properties of the layout engine *)

Module DockLayoutMore.

Import DockLayout DockWalk.

Section Engine.

Variable ratio_resolve : Z -> list DockOptions -> list Z.
Variable sub_layout : Widget -> Z -> Z -> Point -> LayoutMap.

(** X1: a widget that is not visible takes no part in the walk over its
    dock: the walk ends in the same state as the walk over the visible
    widgets alone, each with the size resolved for it. *)
Theorem walk_skips_invisible offset e r order ws : forall sizes st,
  walk sub_layout offset e r order ws sizes st
  = walk sub_layout offset e r order
         (visible_pairs ws sizes).1 (visible_pairs ws sizes).2 st.
Proof.
  induction ws as [|w ws IH]; intros sizes st; [reflexivity|].
  destruct sizes as [|sz sizes]; [reflexivity|]. simpl.
  destruct (visible_pairs ws sizes) as [vw vs] eqn:Hv.
  specialize (IH sizes). rewrite Hv in IH. simpl in IH.
  destruct (visible w) eqn:Hw; simpl.
  - rewrite Hw. simpl.
    destruct (remaining st `min` sz =? 0); [reflexivity|]. apply IH.
  - apply IH.
Qed.

Lemma walk_placements offset e r order ws : forall sizes st,
  let l := placements e r ws sizes (render st) (remaining st) in
  walk_map (walk sub_layout offset e r order ws sizes st)
  = foldl (fun m p => add_widget sub_layout offset p.1.1 p.2 order m)
          (walk_map st) l
  /\ total (walk sub_layout offset e r order ws sizes st)
     = total st + consumed l.
Proof.
  induction ws as [|w ws IH]; intros sizes st; simpl.
  { destruct sizes; simpl; split; try reflexivity; unfold consumed; simpl; lia. }
  destruct sizes as [|sz sizes].
  { split; [reflexivity|]. unfold consumed. simpl. lia. }
  destruct (visible w); simpl; [|apply IH].
  destruct (remaining st `min` sz =? 0).
  { split; [reflexivity|]. unfold consumed. simpl. lia. }
  match goal with |- context [walk _ _ _ _ _ ws sizes ?st'] =>
    destruct (IH sizes st') as [Hmap Htotal] end.
  simpl in Hmap, Htotal. rewrite Hmap, Htotal.
  split; [reflexivity|]. unfold consumed. simpl. lia.
Qed.

Lemma tile_start_advance e render s0 before size :
  tile_start e (advance e render s0) before size
  = tile_start e render (s0 + before) size.
Proof. destruct e; simpl; lia. Qed.

Lemma placed_axis e r render size :
  axis_extent e (placed e r render size) = size
  /\ axis_start e (placed e r render size) = tile_start e render 0 size
  /\ cross_axis e (placed e r render size) = cross_axis e r.
Proof. destruct e; simpl; repeat split; lia. Qed.

Lemma placements_tile_gen e r ws : forall sizes render remaining,
  Forall (fun s => 0 <= s) sizes ->
  0 <= remaining ->
  forall l1 w size reg l2,
    placements e r ws sizes render remaining = l1 ++ (w, size, reg) :: l2 ->
    visible w = true
    /\ 0 < size
    /\ consumed l1 + size <= remaining
    /\ axis_extent e reg = size
    /\ axis_start e reg = tile_start e render (consumed l1) size
    /\ cross_axis e reg = cross_axis e r.
Proof.
  induction ws as [|w0 ws IH]; intros sizes render remaining Hs Hr
    l1 w size reg l2 Hl.
  { destruct sizes, l1; discriminate. }
  destruct sizes as [|sz sizes]; [destruct l1; discriminate|].
  inversion Hs as [|? ? Hsz Hs']; subst. simpl in Hl.
  destruct (visible w0) eqn:Hvis; simpl in Hl; [|eapply IH; eauto].
  destruct (Z.eqb_spec (remaining `min` sz) 0) as [|Hnz];
    [destruct l1; discriminate|].
  destruct l1 as [|p l1]; simpl in Hl.
  - injection Hl as <- <- <- _.
    destruct (placed_axis e r render (remaining `min` sz)) as (Ha & Hb & Hc).
    unfold consumed. simpl. repeat split; try assumption; lia.
  - injection Hl as <- Hl.
    destruct (IH sizes _ _ Hs' (Z.le_max_l 0 _) l1 w size reg l2 Hl)
      as (Hv & Hpos & Hcap & Hext & Hstart & Hcross).
    rewrite tile_start_advance in Hstart.
    unfold consumed in *. simpl.
    repeat split; try assumption. lia.
Qed.

(** X2: the widgets placed by the walk over a dock tile the dock's
    region along its axis: the map is built by [add_widget] from the
    placements in order; each placement belongs to a visible widget, has a
    positive size, starts where the previous one ended (from the docked
    edge inwards), spans the region across the axis, and together with the
    earlier ones stays within the capacity the walk began with. *)
Theorem walk_tiles_region offset e r order ws sizes st :
  Forall (fun s => 0 <= s) sizes ->
  0 <= remaining st ->
  let l := placements e r ws sizes (render st) (remaining st) in
  walk_map (walk sub_layout offset e r order ws sizes st)
  = foldl (fun m p => add_widget sub_layout offset p.1.1 p.2 order m)
          (walk_map st) l
  /\ total (walk sub_layout offset e r order ws sizes st)
     = total st + consumed l
  /\ (forall l1 w size reg l2,
        l = l1 ++ (w, size, reg) :: l2 ->
        visible w = true
        /\ 0 < size
        /\ consumed l1 + size <= remaining st
        /\ axis_extent e reg = size
        /\ axis_start e reg = tile_start e (render st) (consumed l1) size
        /\ cross_axis e reg = cross_axis e r).
Proof.
  intros Hs Hr l.
  destruct (walk_placements offset e r order ws sizes st) as [Hmap Htotal].
  split; [exact Hmap|]. split; [exact Htotal|].
  intros l1 w size reg l2 Hl.
  eapply placements_tile_gen; eauto.
Qed.



End Engine.

Section Independence.

Variable ratio_resolve : Z -> list DockOptions -> list Z.
Variables sub1 sub2 : Widget -> Z -> Z -> Point -> LayoutMap.

(** What a walk consumes does not depend on the map, the offset, the
    paint order or the nested layouts. *)
Lemma walk_total_indep e r ws : forall sizes offset1 offset2 order1 order2 st1 st2,
  remaining st1 = remaining st2 ->
  total st1 = total st2 ->
  total (walk sub1 offset1 e r order1 ws sizes st1)
  = total (walk sub2 offset2 e r order2 ws sizes st2).
Proof.
  induction ws as [|w ws IH]; intros sizes o1 o2 d1 d2 st1 st2 Hrem Htot.
  { destruct sizes; exact Htot. }
  destruct sizes as [|sz sizes]; [exact Htot|]. simpl.
  destruct (visible w); simpl; [|apply IH; assumption].
  rewrite Hrem. destruct (remaining st2 `min` sz =? 0); [exact Htot|].
  apply IH; simpl; congruence.
Qed.

Lemma dock_step_layer layout_region dock
    offset1 offset2 index1 index2 map1 map2 layers1 layers2 :
  layer layout_region layers1 (z dock) = layer layout_region layers2 (z dock) ->
  layer layout_region
    (dock_step ratio_resolve sub1 layout_region offset1 index1 dock
               (map1, layers1)).2 (z dock)
  = layer layout_region
      (dock_step ratio_resolve sub2 layout_region offset2 index2 dock
                 (map2, layers2)).2 (z dock).
Proof.
  intros Heq. unfold dock_step. rewrite Heq.
  destruct (region_bool _); simpl.
  - rewrite !DockLayoutProps.layer_insert_eq. f_equal.
    apply walk_total_indep; reflexivity.
  - rewrite !DockLayoutProps.layer_insert_eq. reflexivity.
Qed.

(** X4: the remaining region a layer ends with is decided by the docks of
    that layer alone, in their order: it is the same after a run over
    only those docks, and it depends neither on the offset, nor on the
    position of the docks in the list, nor on nested layouts. *)
Theorem layer_decided_by_own_docks layout_region k docks :
  forall offset1 offset2 index1 index2 map1 map2 layers1 layers2,
    layer layout_region layers1 k = layer layout_region layers2 k ->
    layer layout_region
      (dock_loop ratio_resolve sub1 layout_region offset1 index1 docks
                 (map1, layers1)).2 k
    = layer layout_region
        (dock_loop ratio_resolve sub2 layout_region offset2 index2
                   (List.filter (fun dock => bool_decide (z dock = k)) docks)
                   (map2, layers2)).2 k.
Proof.
  induction docks as [|dock docks IH];
    intros o1 o2 i1 i2 m1 m2 l1 l2 Heq; [exact Heq|].
  cbn [dock_loop List.filter].
  destruct (dock_step ratio_resolve sub1 layout_region o1 i1 dock (m1, l1))
    as [m1' l1'] eqn:Hstep1.
  assert (l1' = (dock_step ratio_resolve sub1 layout_region o1 i1 dock
                   (m1, l1)).2) as Hl1 by (rewrite Hstep1; reflexivity).
  destruct (bool_decide_reflect (z dock = k)) as [Hz|Hz]; cbn [dock_loop].
  - destruct (dock_step ratio_resolve sub2 layout_region o2 i2 dock (m2, l2))
      as [m2' l2'] eqn:Hstep2.
    apply IH. subst k l1'.
    assert (l2' = (dock_step ratio_resolve sub2 layout_region o2 i2 dock
                     (m2, l2)).2) as -> by (rewrite Hstep2; reflexivity).
    apply dock_step_layer. exact Heq.
  - apply IH. subst l1'.
    rewrite DockLayoutProps.dock_step_other by congruence. exact Heq.
Qed.

End Independence.

Section Offsets.

Variable ratio_resolve : Z -> list DockOptions -> list Z.

Lemma translate_compose o d mr :
  translate d (translate o mr)
  = translate (mkPoint (px o + px d) (py o + py d)) mr.
Proof.
  destruct mr as [[x y w h] ord]. unfold translate, region_add. simpl.
  f_equal. f_equal; lia.
Qed.

Lemma translate_zero mr : translate (mkPoint 0 0) mr = mr.
Proof.
  destruct mr as [[x y w h] ord]. unfold translate, region_add. simpl.
  f_equal. f_equal; lia.
Qed.

Section Walk.

Variable sub : Widget -> Z -> Z -> Point -> LayoutMap.

Lemma add_widget_offset offset w region order (m : LayoutMap) :
  relative_layout sub w ->
  add_widget sub offset w region order (translate offset <$> m)
  = translate offset <$> add_widget sub (mkPoint 0 0) w region order m.
Proof.
  intros Hrel. unfold add_widget.
  set (r0 := region_add (region_add region (mkPoint 0 0)) (layout_offset w)).
  set (r1 := region_add (region_add region offset) (layout_offset w)).
  assert (r1 = region_add r0 offset) as Hr.
  { unfold r0, r1, region_add. simpl. f_equal; lia. }
  assert (mkMapRegion r1 order = translate offset (mkMapRegion r0 order)) as He.
  { rewrite Hr. reflexivity. }
  destruct (is_view w).
  - rewrite map_fmap_union, fmap_insert, <- He. f_equal.
    rewrite (Hrel _ _ (region_origin r1)), (Hrel _ _ (region_origin r0)).
    rewrite <- map_fmap_compose.
    assert (region_width r1 = region_width r0) as -> by (rewrite Hr; reflexivity).
    assert (region_height r1 = region_height r0) as -> by (rewrite Hr; reflexivity).
    apply map_fmap_ext. intros i mr _. simpl.
    rewrite translate_compose, Hr. reflexivity.
  - rewrite fmap_insert, <- He. reflexivity.
Qed.

Lemma walk_offset offset e r order ws : forall sizes st,
  Forall (relative_layout sub) ws ->
  walk sub offset e r order ws sizes
       (mkWalk (render st) (remaining st) (total st)
               (translate offset <$> walk_map st))
  = let st' := walk sub (mkPoint 0 0) e r order ws sizes st in
    mkWalk (render st') (remaining st') (total st')
           (translate offset <$> walk_map st').
Proof.
  induction ws as [|w ws IH]; intros sizes st Hrel.
  { destruct sizes; reflexivity. }
  destruct sizes as [|sz sizes]; [reflexivity|].
  inversion Hrel as [|? ? Hw Hws]; subst. simpl.
  destruct (visible w); simpl; [|apply IH, Hws].
  destruct (remaining st `min` sz =? 0); [reflexivity|].
  rewrite add_widget_offset by exact Hw.
  match goal with |- context [walk sub (mkPoint 0 0) e r order ws sizes ?st'] =>
    apply (IH sizes st' Hws) end.
Qed.

Lemma dock_loop_offset layout_region offset docks : forall index map layers,
  Forall (fun dock => Forall (relative_layout sub) (widgets dock)) docks ->
  dock_loop ratio_resolve sub layout_region offset index docks
            (translate offset <$> map, layers)
  = let st := dock_loop ratio_resolve sub layout_region (mkPoint 0 0) index
                        docks (map, layers) in
    (translate offset <$> st.1, st.2).
Proof.
  induction docks as [|dock docks IH]; intros index map layers Hrel;
    [reflexivity|].
  inversion Hrel as [|? ? Hd Hds]; subst. cbn [dock_loop].
  assert (dock_step ratio_resolve sub layout_region offset index dock
                    (translate offset <$> map, layers)
          = let st := dock_step ratio_resolve sub layout_region (mkPoint 0 0)
                                index dock (map, layers) in
            (translate offset <$> st.1, st.2)) as Hstep.
  { unfold dock_step. destruct (region_bool _); [|reflexivity]. simpl.
    match goal with |- context [walk sub (mkPoint 0 0) ?e ?r ?o ?ws ?sz ?st0] =>
      pose proof (walk_offset offset e r o ws sz st0 Hd) as Hwalk end.
    simpl in Hwalk. rewrite Hwalk. reflexivity. }
  rewrite Hstep.
  destruct (dock_step ratio_resolve sub layout_region (mkPoint 0 0) index dock
              (map, layers)) as [map' layers'].
  cbn [fst snd]. apply IH, Hds.
Qed.

Lemma generate_docks_offset docks width height offset :
  Forall (fun dock => Forall (relative_layout sub) (widgets dock)) docks ->
  generate_docks ratio_resolve sub docks width height offset
  = translate offset
    <$> generate_docks ratio_resolve sub docks width height (mkPoint 0 0).
Proof.
  intros Hrel. unfold generate_docks.
  pose proof (dock_loop_offset (mkRegion 0 0 width height) offset docks
                0%nat ∅ ∅ Hrel) as Hloop.
  rewrite fmap_empty in Hloop. rewrite Hloop. reflexivity.
Qed.

End Walk.

Lemma layout_of_relative w : relative_layout (layout_of ratio_resolve) w.
Proof.
  apply (DockLayoutProps.widget_nested_ind
           (relative_layout (layout_of ratio_resolve))).
  - intros attrs width height offset. simpl. rewrite fmap_empty. reflexivity.
  - intros attrs docks Hdocks width height offset. simpl.
    apply generate_docks_offset. exact Hdocks.
Qed.

(** X5: the offset only translates the result: the map computed with an
    offset is the map computed at the origin with every region, also
    those of widgets in nested views, moved by the offset; widths, heights
    and paint orders do not depend on it. *)
Theorem generate_map_offset docks width height offset :
  generate_map ratio_resolve docks width height offset
  = translate offset
    <$> generate_map ratio_resolve docks width height (mkPoint 0 0).
Proof.
  unfold generate_map. apply generate_docks_offset.
  apply Forall_forall. intros dock _.
  apply Forall_forall. intros w _. apply layout_of_relative.
Qed.

End Offsets.

Section Provenance.

Variable ratio_resolve : Z -> list DockOptions -> list Z.
Variable sub : Widget -> Z -> Z -> Point -> LayoutMap.

Lemma add_widget_entries offset w region order (m : LayoutMap) id mr :
  add_widget sub offset w region order m !! id = Some mr ->
  m !! id = Some mr \/ entry_of sub w order id mr.
Proof.
  unfold add_widget, entry_of.
  set (r1 := region_add (region_add region offset) (layout_offset w)).
  assert (<[wid w := mkMapRegion r1 order]> m !! id = Some mr ->
          m !! id = Some mr \/ (wid w = id /\ map_order mr = order)) as Hins.
  { destruct (decide (wid w = id)) as [<-|Hne].
    - rewrite lookup_insert_eq. intros [= <-]. right. auto.
    - rewrite lookup_insert_ne by exact Hne. auto. }
  destruct (is_view w).
  - intros Hl. apply lookup_union_Some_raw in Hl as [Hsub|[_ Hm]].
    + right. right. split; [reflexivity|]. eauto.
    + destruct (Hins Hm); auto.
  - intros Hm. destruct (Hins Hm); auto.
Qed.

Lemma walk_entries offset e r order ws : forall sizes st id mr,
  walk_map (walk sub offset e r order ws sizes st) !! id = Some mr ->
  walk_map st !! id = Some mr
  \/ exists w, w ∈ ws /\ visible w = true /\ entry_of sub w order id mr.
Proof.
  induction ws as [|w ws IH]; intros sizes st id mr Hl.
  { destruct sizes; auto. }
  destruct sizes as [|sz sizes]; [auto|]. simpl in Hl.
  destruct (visible w) eqn:Hv; simpl in Hl.
  - destruct (remaining st `min` sz =? 0); [auto|].
    apply IH in Hl as [Hl|(w' & Hin & Hv' & He)].
    + simpl in Hl. apply add_widget_entries in Hl as [Hl|He]; [auto|].
      right. exists w. split; [by left|auto].
    + right. exists w'. split; [by right|auto].
  - apply IH in Hl as [Hl|(w' & Hin & Hv' & He)]; [auto|].
    right. exists w'. split; [by right|auto].
Qed.

Lemma dock_loop_entries layout_region offset docks :
  forall start map layers id mr,
    (dock_loop ratio_resolve sub layout_region offset start docks
               (map, layers)).1 !! id = Some mr ->
    map !! id = Some mr
    \/ exists i dock w,
         docks !! i = Some dock /\ w ∈ widgets dock /\ visible w = true
         /\ entry_of sub w (z dock, (start + i)%nat) id mr.
Proof.
  induction docks as [|dock docks IH]; intros start map layers id mr Hl;
    [auto|]. cbn [dock_loop] in Hl.
  destruct (dock_step ratio_resolve sub layout_region offset start dock
              (map, layers)) as [map' layers'] eqn:Hstep.
  apply IH in Hl as [Hl|(i & d & w & Hd & Hin & Hv & He)].
  - assert (map' = (dock_step ratio_resolve sub layout_region offset start
                      dock (map, layers)).1) as -> by (rewrite Hstep; reflexivity).
    unfold dock_step in Hl.
    destruct (region_bool _); simpl in Hl; [|auto].
    apply walk_entries in Hl as [Hl|(w & Hin & Hv & He)]; [auto|].
    right. exists 0%nat, dock, w. rewrite Nat.add_0_r. auto.
  - right. exists (S i), d, w.
    replace (start + S i)%nat with (S start + i)%nat by lia. auto.
Qed.

(** X6: every entry of the map was written for a visible widget of one
    of the docks, and then carries the paint order (z of the dock, index
    of the dock in the list), or was returned by the nested layout of a
    visible view of one of the docks; a widget that is not visible gets no
    entry from its dock. *)
Theorem map_entries_come_from_docks docks width height offset id mr :
  generate_docks ratio_resolve sub docks width height offset !! id = Some mr ->
  exists i dock w,
    docks !! i = Some dock /\ w ∈ widgets dock /\ visible w = true
    /\ entry_of sub w (z dock, i) id mr.
Proof.
  unfold generate_docks. intros Hl.
  apply dock_loop_entries in Hl as [Hl|Hl]; [|exact Hl].
  rewrite lookup_empty in Hl. discriminate.
Qed.

End Provenance.

(** ** The further properties at sample inputs *)

Lemma walk_tiles_region_witness :
  total (walk no_sub_layout (mkPoint 0 0) top (mkRegion 0 0 10 10)
              (0, 0%nat) [widget_1; widget_2; widget_3] [3; 4; 5]
              (mkWalk 0 10 0 ∅)) = 10.
Proof.
  destruct (walk_tiles_region no_sub_layout (mkPoint 0 0) top
              (mkRegion 0 0 10 10) (0, 0%nat)
              [widget_1; widget_2; widget_3] [3; 4; 5] (mkWalk 0 10 0 ∅))
    as (_ & Htotal & _).
  - repeat constructor; discriminate.
  - discriminate.
  - rewrite Htotal. reflexivity.
Defined.


Lemma layer_decided_by_own_docks_witness :
  layer (mkRegion 0 0 100 30)
    (dock_loop (resolve_sizes [40]) no_sub_layout (mkRegion 0 0 100 30)
               (mkPoint 0 0) 0%nat overlay_docks_sample (∅, ∅)).2 1
  = layer (mkRegion 0 0 100 30)
      (dock_loop (resolve_sizes [40]) no_sub_layout (mkRegion 0 0 100 30)
                 (mkPoint 7 7) 0%nat [bar_dock] (∅, ∅)).2 1.
Proof.
  exact (layer_decided_by_own_docks (resolve_sizes [40]) no_sub_layout
           no_sub_layout (mkRegion 0 0 100 30) 1 overlay_docks_sample
           (mkPoint 0 0) (mkPoint 7 7) 0%nat 0%nat ∅ ∅ ∅ ∅ eq_refl).
Defined.

Lemma map_entries_come_from_docks_witness :
  exists i dock w,
    overlay_docks_sample !! i = Some dock /\ w ∈ widgets dock
    /\ visible w = true
    /\ entry_of no_sub_layout w (z dock, i) 4%nat
                (mkMapRegion (mkRegion 0 0 40 30) (1, 1%nat)).
Proof.
  apply (map_entries_come_from_docks (resolve_sizes [40]) no_sub_layout
           overlay_docks_sample 100 30 (mkPoint 0 0)).
  vm_compute. reflexivity.
Defined.

End DockLayoutMore.

(** * Further properties of the orchestrator *)

Module AppMore.

Import App AppHandlers AppProps.

Section Methods.

Variable raises : Effect -> option string.
Variable parse : string -> string * list string + string.
Variable has_method : Object -> string -> bool.
Variable super_process_messages : M unit.
Variable super_on_event : events.Event -> M unit.
Variable on_load : events.Event -> M unit.

Lemma widget_eqb_refl w : widget_eqb w w = true.
Proof. unfold widget_eqb. apply Nat.eqb_refl. Qed.

(** ** Focus *)

Lemma set_focus_focusable widget s :
  (forall w, focused s = Some w -> can_focus w = true) ->
  forall w,
    focused (set_focus raises widget s).1.2 = Some w -> can_focus w = true.
Proof.
  intros Hinv w. unfold set_focus. msimpl.
  destruct (opt_widget_eqb widget (focused s)); [apply Hinv|].
  destruct widget as [w'|].
  - destruct (can_focus w') eqn:Hc; [|apply Hinv].
    remember (focused s) as holder eqn:Hf.
    destruct holder as [old|]; msimpl;
      repeat match goal with
             | |- context [raises ?eff] => destruct (raises eff); simpl
             | |- context [focused s] => rewrite <- Hf; simpl
             | |- context [widget_eqb ?a ?b] => destruct (widget_eqb a b); simpl
             end;
      try (intros [= <-]; exact Hc);
      try apply Hinv.
  - remember (focused s) as holder eqn:Hf.
    destruct holder as [old|]; simpl; [discriminate|].
    rewrite <- Hf. discriminate.
Qed.

(** X7: the focus is only ever held by a focusable widget: when this
    holds before a sequence of [set_focus] calls, it holds after it,
    whichever of the calls raise. *)
Theorem focus_stays_focusable calls : forall s,
  (forall w, focused s = Some w -> can_focus w = true) ->
  forall w,
    focused (set_focus_all raises calls s).1.2 = Some w -> can_focus w = true.
Proof.
  induction calls as [|widget calls IH]; intros s Hinv w; [apply Hinv|].
  simpl. msimpl.
  pose proof (set_focus_focusable widget s Hinv) as Hstep.
  destruct (set_focus raises widget s) as [[[[]|e] s1] t1]; simpl in *.
  - specialize (IH s1 Hstep w).
    destruct (set_focus_all raises calls s1) as [[r2 s2] t2]. exact IH.
  - apply Hstep.
Qed.

(** X8: when posting [Blur] to the focus holder raises, a [set_focus]
    that moves the focus to another widget leaves the focus where it was
    and posts no [Focus], while a [set_focus(None)] has already cleared
    the focus; in both cases the exception is the outcome of the call. *)
Theorem set_focus_blur_failure s old w name :
  focused s = Some old ->
  can_focus w = true ->
  widget_eqb w old = false ->
  raises (PostMessage (PumpWidget old) events.Blur) = Some name ->
  set_focus raises (Some w) s
  = (Raise (Escaped name), s, [PostMessage (PumpWidget old) events.Blur])
  /\ set_focus raises None s
     = (Raise (Escaped name), set_focused None s,
        [AssignFocused None; PostMessage (PumpWidget old) events.Blur]).
Proof.
  intros Hf Hc Hne Hr. unfold set_focus. msimpl. rewrite Hf. msimpl.
  rewrite Hne, Hc, Hr. split; reflexivity.
Qed.

(** ** Pointer-over *)

(** X9: [set_mouse_over] is idempotent: after a call, whether or not it
    raised, the same call again performs no effect and changes nothing. *)
Theorem set_mouse_over_idempotent widget s :
  let s1 := (set_mouse_over raises widget s).1.2 in
  set_mouse_over raises widget s1 = (Return tt, s1, []).
Proof.
  intros s1.
  assert (opt_widget_eqb (mouse_over s1) widget = true) as Hsame.
  { subst s1. unfold set_mouse_over. msimpl.
    destruct widget as [w|].
    - destruct (opt_widget_eqb (mouse_over s) (Some w)) eqn:Heq;
        [exact Heq|].
      simpl. destruct (mouse_over s) as [old|]; msimpl;
        repeat match goal with
               | |- context [raises ?eff] => destruct (raises eff); simpl
               end;
        apply widget_eqb_refl.
    - destruct (mouse_over s) as [old|] eqn:Hm; simpl.
      + reflexivity.
      + rewrite Hm. reflexivity. }
  clearbody s1. unfold set_mouse_over. msimpl.
  destruct widget as [w|].
  - rewrite Hsame. reflexivity.
  - destruct (mouse_over s1); [discriminate|reflexivity].
Qed.

(** ** Bindings and routing *)

(** X10: after [bind(keys, action, description)], a [Key] event for any
    of the keys is not forwarded: [on_event] runs the bound action on the
    application. *)
Theorem bound_key_dispatches s keys act description k :
  k ∈ Str.strip <$> Str.split "," keys ->
  let s' := (bind keys act description s).1.2 in
  on_event raises parse has_method super_on_event (events.Key k) s'
  = action raises parse has_method act None s'.
Proof.
  intros Hk s'. subst s'. unfold bind. rewrite bind_all_run. simpl.
  unfold on_event. msimpl. simpl.
  rewrite foldl_insert_lookup, bool_decide_eq_true_2 by exact Hk. simpl.
  destruct (action _ _ _ _ _ _) as [[r s''] t']. reflexivity.
Qed.

(** X11: an event that is an input event but not a key event is
    forwarded to the active view and to nothing else, whatever the
    bindings, the focused widget and the widget that captured the mouse
    are. *)
Theorem pointer_events_go_to_view s event v bindings holder captured :
  events.is_Key event = false ->
  events.is_InputEvent event = true ->
  last (_view_stack s) = Some v ->
  let s' := set_bindings bindings (set_focused holder
              (set_mouse_captured captured s)) in
  exists r,
    on_event raises parse has_method super_on_event event s'
    = (r, s', [ForwardEvent v event]).
Proof.
  intros Hkey Hinput Hv s'. subst s'. unfold on_event, view. msimpl.
  destruct event; try discriminate; simpl; rewrite Hv; msimpl;
    destruct (raises _); eexists; reflexivity.
Qed.

(** ** Lifecycle *)


(** ** Children *)

(** X13: [remove] undoes [register]: registering a child that was not
    registered and removing it again leaves the application as it was;
    removing a child that is not registered raises [KeyError] and changes
    nothing. *)
Theorem register_then_remove child s :
  wid child ∉ children s ->
  raises (StartMessages child) = None ->
  raises (PostMessage (PumpWidget child) events.Created) = None ->
  (register raises child ;; remove child) s
  = (Return tt, s,
     [StartMessages child; PostMessage (PumpWidget child) events.Created])
  /\ remove child s = (Raise (Escaped "KeyError"), s, []).
Proof.
  intros Hnot Hstart Hpost. split.
  - unfold register, remove. msimpl. rewrite Hstart, Hpost. simpl.
    rewrite bool_decide_eq_true_2
      by (apply elem_of_union_l, elem_of_singleton; reflexivity).
    simpl. f_equal. f_equal. destruct s. unfold set_children. simpl in *.
    f_equal. apply set_eq. intros x.
    rewrite elem_of_difference, elem_of_union, elem_of_singleton.
    split; [tauto|]. intros Hx. split; [tauto|]. congruence.
  - unfold remove. msimpl.
    rewrite bool_decide_eq_false_2 by exact Hnot. reflexivity.
Qed.

(** X14: [push_view] registers the new view whether or not it goes on to
    raise, and unregisters nothing: the view it replaces stays among the
    children. *)
Theorem push_view_registers v s :
  let s' := (push_view raises v s).1.2 in
  wid v ∈ children s' /\ children s ⊆ children s'.
Proof.
  intros s'. subst s'. unfold push_view, register. msimpl.
  repeat match goal with
         | |- context [raises ?eff] => destruct (raises eff); simpl
         end;
    try (destruct (_view_stack s); simpl); set_solver.
Qed.

(** X15: once [push_view(v)] has returned on an application with one
    view, events reach [v]: the resize and mouse handlers post to it, and
    [on_event] forwards pointer events to it. *)
Theorem push_view_redirects v s event :
  length (_view_stack s) = 1%nat ->
  (push_view raises v s).1.1 = Return v ->
  let s' := (push_view raises v s).1.2 in
  (exists r,
      on_resize raises event s'
      = (r, s', [PostMessage (PumpWidget v) event]))
  /\ (events.is_Key event = false ->
      events.is_InputEvent event = true ->
      exists r,
        on_event raises parse has_method super_on_event event s'
        = (r, s', [ForwardEvent v event])).
Proof.
  intros Hlen Hret s'.
  assert (_view_stack s' = [v]) as Hstack.
  { subst s'. revert Hret. unfold push_view, register. msimpl.
    repeat match goal with
           | |- context [raises ?eff] => destruct (raises eff); simpl
           end; try discriminate.
    destruct (_view_stack s) as [|old [|? rest]]; try discriminate.
    reflexivity. }
  assert (last (_view_stack s') = Some v) as Hlast
    by (rewrite Hstack; reflexivity).
  clearbody s'. split.
  - unfold on_resize, post_to_view, view. msimpl. rewrite Hlast. msimpl.
    destruct (raises _); eexists; reflexivity.
  - intros Hkey Hinput. unfold on_event, view. msimpl.
    destruct event; try discriminate; simpl; rewrite Hlast; msimpl;
      destruct (raises _); eexists; reflexivity.
Qed.

(** ** What no call changes *)

Section Frame.

Hypothesis super_on_event_frame :
  forall event s,
    _view_stack (super_on_event event s).1.2 = _view_stack s
    /\ _action_targets (super_on_event event s).1.2 = _action_targets s.

Ltac split_raises :=
  repeat match goal with
         | |- context [raises ?eff] => destruct (raises eff); simpl
         end.

Lemma action_state act default_namespace s :
  (action raises parse has_method act default_namespace s).1.2 = s.
Proof.
  destruct (action_trace raises parse has_method act default_namespace s)
    as (r & t & Hrun & _).
  rewrite Hrun. reflexivity.
Qed.

Lemma on_event_frame event s :
  _view_stack (on_event raises parse has_method super_on_event event s).1.2
  = _view_stack s
  /\ _action_targets
       (on_event raises parse has_method super_on_event event s).1.2
     = _action_targets s.
Proof.
  unfold on_event. msimpl.
  destruct (match event with
            | events.Key key => _bindings s !! key
            | _ => None
            end) as [binding|].
  - pose proof (action_state (binding_action binding) None s) as Hs.
    destruct (action _ _ _ _ _ _) as [[r s'] t]. simpl in *. subst s'. auto.
  - destruct (events.is_InputEvent event).
    + unfold view. msimpl.
      destruct (events.is_Key event); [destruct (focused s)|]; msimpl;
        split_raises; destruct (last (_view_stack s)); msimpl;
        split_raises; auto.
    + pose proof (super_on_event_frame event s) as Hs.
      destruct (super_on_event event s) as [[r s'] t]. exact Hs.
Qed.

Lemma run_call_frame c s :
  let s' := (run_call raises parse has_method super_on_event c s).1.2 in
  _action_targets s' = _action_targets s
  /\ (length (_view_stack s) = 1%nat -> length (_view_stack s') = 1%nat).
Proof.
  destruct c as [keys act description|v|widget|widget|widget|child|child
                |act default_namespace|event|event]; simpl.
  - unfold bind. rewrite bind_all_run. auto.
  - pose proof (push_view_length raises v s) as Hlen.
    unfold push_view, register in *. revert Hlen. msimpl.
    split_raises; auto.
    destruct (_view_stack s); simpl; auto.
  - unfold set_focus. msimpl.
    destruct (opt_widget_eqb widget (focused s)); [auto|].
    destruct widget as [w|]; [destruct (can_focus w)|];
      destruct (focused s) as [old|] eqn:Hf; msimpl; split_raises;
      rewrite ?Hf; simpl;
      repeat match goal with
             | |- context [widget_eqb ?a ?b] => destruct (widget_eqb a b); simpl
             end;
      split_raises; auto.
  - unfold set_mouse_over. msimpl.
    destruct widget as [w|];
      [destruct (opt_widget_eqb (mouse_over s) (Some w))|];
      destruct (mouse_over s); msimpl; split_raises; auto.
  - auto.
  - unfold register. msimpl. split_raises; auto.
  - unfold remove. msimpl. destruct (bool_decide _); auto.
  - rewrite action_state. auto.
  - destruct (on_event_frame event s) as [Hstack Htargets].
    rewrite Hstack. auto.
  - unfold on_resize, post_to_view, view. msimpl.
    destruct (last (_view_stack s)); msimpl; split_raises; auto.
Qed.

(** X16: through any sequence of calls of the orchestrator's methods,
    whichever of them raise, the view stack holds exactly one view and
    the registered action namespaces stay [app] and [view]. *)
Theorem orchestrator_invariant calls root :
  let s := run_calls raises parse has_method super_on_event calls (init root) in
  length (_view_stack s) = 1%nat /\ well_formed s.
Proof.
  intros s.
  assert (forall s0,
            length (_view_stack s0) = 1%nat ->
            _action_targets s0 = _action_targets (init root) ->
            let s1 := run_calls raises parse has_method super_on_event calls s0 in
            length (_view_stack s1) = 1%nat
            /\ _action_targets s1 = _action_targets (init root)) as Hall.
  { induction calls as [|c calls IH]; intros s0 Hlen Htargets; [auto|].
    destruct (run_call_frame c s0) as [Ht Hl].
    cbn [run_calls]. apply IH; [apply Hl, Hlen|congruence]. }
  destruct (Hall (init root) eq_refl eq_refl) as [Hlen Htargets].
  fold s in Hlen, Htargets. split; [exact Hlen|].
  split; [exact Htargets|].
  intros Hnil. rewrite Hnil in Hlen. discriminate.
Qed.

End Frame.

(** ** Repeated and reordered calls *)

(** X17: when posting does not raise, [set_focus] is idempotent: after a
    call, the same call again posts nothing and changes nothing. *)
Theorem set_focus_idempotent widget s :
  (forall target event, raises (PostMessage target event) = None) ->
  let s1 := (set_focus raises widget s).1.2 in
  set_focus raises widget s1 = (Return tt, s1, []).
Proof.
  intros Hpost s1.
  assert (opt_widget_eqb widget (focused s1) = true
          \/ (exists w, widget = Some w /\ can_focus w = false)) as Hsame.
  { subst s1. unfold set_focus. msimpl.
    destruct (opt_widget_eqb widget (focused s)) eqn:Heq; [auto|].
    destruct widget as [w|].
    - destruct (can_focus w) eqn:Hc; [|eauto].
      left. rewrite opt_widget_eqb_sym in Heq.
      destruct (focused s) as [old|] eqn:Hf; msimpl;
        rewrite ?Hpost, ?Hf; simpl; simpl in Heq; rewrite ?Heq; simpl;
        rewrite ?Hpost; simpl; apply widget_eqb_refl.
    - left. destruct (focused s) as [old|]; [|discriminate].
      simpl. rewrite ?Hpost. reflexivity. }
  clearbody s1. unfold set_focus. msimpl.
  destruct Hsame as [Hsame|(w & -> & Hc)].
  - rewrite Hsame. reflexivity.
  - destruct (opt_widget_eqb (Some w) (focused s1)); [reflexivity|].
    rewrite Hc. reflexivity.
Qed.

(** X18: two [bind] calls whose keys are all different can be made in
    either order: the resulting binding tables are the same. *)
Theorem bind_commutes s keys1 action1 description1 keys2 action2 description2 :
  (forall k, k ∈ Str.strip <$> Str.split "," keys1 ->
             k ∈ Str.strip <$> Str.split "," keys2 -> False) ->
  _bindings (bind keys2 action2 description2
               (bind keys1 action1 description1 s).1.2).1.2
  = _bindings (bind keys1 action1 description1
                 (bind keys2 action2 description2 s).1.2).1.2.
Proof.
  intros Hdisjoint. unfold bind.
  repeat (rewrite bind_all_run; simpl).
  apply map_eq. intros k. rewrite !foldl_insert_lookup.
  destruct (bool_decide_reflect (k ∈ Str.strip <$> Str.split "," keys1))
    as [H1|H1];
    destruct (bool_decide_reflect (k ∈ Str.strip <$> Str.split "," keys2))
      as [H2|H2]; try reflexivity.
  destruct (Hdisjoint k H1 H2).
Qed.

(** X19: an action in the namespace [view] is dispatched on the active
    view, whatever default namespace is given: its handler
    [action_<name>] is called with the parsed parameters, and nothing else
    is. *)
Theorem view_namespace_targets_active_view
    s act default_namespace target name params v :
  parse act = inl (target, params) ->
  Str.contains "." target = true ->
  Str.split1 "." target = ("view"%string, name) ->
  "view"%string ∈ _action_targets s ->
  last (_view_stack s) = Some v ->
  has_method (ObjWidget v) (String.append "action_" name) = true ->
  exists r,
    action raises parse has_method act default_namespace s
    = (r, s, [CallMethod (ObjWidget v) (String.append "action_" name) params]).
Proof.
  intros Hparse Hdot Hsplit Hin Hv Hm.
  unfold action. rewrite Hparse, Hdot, Hsplit. msimpl.
  rewrite bool_decide_eq_true_2 by exact Hin. simpl.
  unfold getattr_self, view. simpl. msimpl. rewrite Hv. msimpl.
  unfold dispatch_action. rewrite Hm. msimpl.
  destruct (raises _); eexists; reflexivity.
Qed.

End Methods.

(** ** The further properties at sample inputs *)

Local Open Scope string_scope.

Lemma focus_stays_focusable_witness :
  focused (set_focus_all blur_raises
             [Some widget_1; Some widget_a; Some widget_b; None]
             (init root_view)).1.2 = Some widget_a
  /\ can_focus widget_a = true.
Proof.
  split; [reflexivity|].
  apply (focus_stays_focusable blur_raises
           [Some widget_1; Some widget_a; Some widget_b; None]
           (init root_view)).
  - intros w Hw. discriminate.
  - reflexivity.
Defined.

Lemma set_focus_blur_failure_witness :
  focused (set_focus blur_raises (Some widget_b) app_focus_a).1.2
  = Some widget_a
  /\ focused (set_focus blur_raises None app_focus_a).1.2 = None.
Proof.
  destruct (set_focus_blur_failure blur_raises app_focus_a widget_a widget_b
              "RuntimeError" eq_refl eq_refl eq_refl eq_refl) as [Hmove Hclear].
  rewrite Hmove, Hclear. split; reflexivity.
Defined.

Lemma bound_key_dispatches_witness :
  on_event never_raises parse_bare App_has_method (fun _ => mret tt)
           (events.Key "ctrl+c") app_bound_q
  = action never_raises parse_bare App_has_method "quit" None app_bound_q.
Proof.
  apply (bound_key_dispatches never_raises parse_bare App_has_method
           (fun _ => mret tt) (init root_view) "q,ctrl+c" "quit" "" "ctrl+c").
  apply list_elem_of_In. vm_compute. right. left. reflexivity.
Defined.

Lemma pointer_events_go_to_view_witness :
  exists r,
    on_event never_raises parse_bare App_has_method (fun _ => mret tt)
             events.MouseMove
             (set_focused (Some widget_a)
                (set_mouse_captured (Some widget_b) app_bound_q))
    = (r,
       set_focused (Some widget_a)
         (set_mouse_captured (Some widget_b) app_bound_q),
       [ForwardEvent root_view events.MouseMove]).
Proof.
  exact (pointer_events_go_to_view never_raises parse_bare App_has_method
           (fun _ => mret tt) (init root_view) events.MouseMove root_view
           (_bindings app_bound_q) (Some widget_a) (Some widget_b)
           eq_refl eq_refl eq_refl).
Defined.


Lemma register_then_remove_witness :
  (register never_raises widget_a ;; remove widget_a) (init root_view)
  = (Return tt, init root_view,
     [StartMessages widget_a;
      PostMessage (PumpWidget widget_a) events.Created]).
Proof.
  destruct (register_then_remove never_raises widget_a (init root_view))
    as [Hround _]; [|reflexivity|reflexivity|exact Hround].
  apply not_elem_of_empty.
Defined.

Lemma push_view_redirects_witness :
  exists r,
    on_resize never_raises events.Resize
              (push_view never_raises widget_a (init root_view)).1.2
    = (r, (push_view never_raises widget_a (init root_view)).1.2,
       [PostMessage (PumpWidget widget_a) events.Resize]).
Proof.
  destruct (push_view_redirects never_raises parse_bare App_has_method
              (fun _ => mret tt) widget_a (init root_view) events.Resize
              eq_refl eq_refl) as [Hresize _].
  exact Hresize.
Defined.

Lemma orchestrator_invariant_witness :
  length
    (_view_stack
       (run_calls leave_raises parse_bare App_has_method (fun _ => mret tt)
          [CallPushView widget_a; CallBind "q" "quit" "";
           CallSetMouseOver (Some widget_b); CallOnEvent events.Startup;
           CallRemove widget_b; CallPushView widget_b]
          (init root_view))) = 1%nat.
Proof.
  apply (orchestrator_invariant leave_raises parse_bare App_has_method
           (fun _ => mret tt)).
  intros event s. split; reflexivity.
Defined.

Lemma set_focus_idempotent_witness :
  set_focus never_raises (Some widget_b)
            (set_focus never_raises (Some widget_b) app_focus_a).1.2
  = (Return tt, (set_focus never_raises (Some widget_b) app_focus_a).1.2, []).
Proof.
  apply (set_focus_idempotent never_raises (Some widget_b) app_focus_a).
  intros target event. reflexivity.
Defined.

Lemma bind_commutes_witness :
  _bindings (bind "b" "toggle_sidebar" "" app_bound_q).1.2
  = _bindings (bind "q,ctrl+c" "quit" ""
                 (bind "b" "toggle_sidebar" "" (init root_view)).1.2).1.2.
Proof.
  apply (bind_commutes (init root_view) "q,ctrl+c" "quit" "" "b"
           "toggle_sidebar" "").
  intros k H1 H2.
  apply list_elem_of_In in H1. apply list_elem_of_In in H2.
  vm_compute in H1, H2.
  destruct H2 as [<-|[]]. destruct H1 as [H1|[H1|[]]]; discriminate.
Defined.

Lemma view_namespace_targets_active_view_witness :
  exists r,
    action never_raises parse_bare (fun _ _ => true) "view.toggle"
           (Some ObjApp) (init root_view)
    = (r, init root_view,
       [CallMethod (ObjWidget root_view) "action_toggle" []]).
Proof.
  apply (view_namespace_targets_active_view never_raises parse_bare
           (fun _ _ => true) (init root_view) "view.toggle" (Some ObjApp)
           "view.toggle" "toggle" [] root_view);
    reflexivity.
Defined.

End AppMore.
